(** * Glow: a one-stroke painting puzzle (src/src/app.tsx)

    A shallow embedding of the game logic of the [App] component: level
    generation, the cell-click handler with its revert and extend branches,
    the completion check, the pointer handlers that gate the click handler,
    and the two timers the click handler starts.

    Conventions of the embedding.
    - A JavaScript [number] that is an integer here (cell coordinates come out
      of [Math.floor], paint orders are array lengths) is a [Z].
    - An array is a [list]; reading is stdpp's lookup [l !! i].  Reading a
      missing row gives [undefined], and indexing [undefined] throws a
      [TypeError]: handlers therefore live in [option], [None] being the
      uncaught [TypeError].  Reading a missing cell of an existing row gives
      [undefined] without throwing.
    - The painted grid holds [option Z] cells, [None] being a hole of the
      array (read as [undefined]), so that an assignment past the end of a row
      can extend it the way JavaScript does.
    - Component state is a record; every event handler runs on the state left
      by the previous one (the component re-renders between two events).
    - [setTimeout] callbacks are kept in the state as pending timers and run
      as events of their own.
    - Sounds, tap animations and styling are presentation and are left out. *)

From stdpp Require Import base numbers option list.

Local Open Scope Z_scope.

(** ** Game constants *)

Definition GRID_SIZE : Z := 8.

(** The loop counters [0 .. GRID_SIZE - 1]. *)
Definition grid_range : list nat := seq 0 (Z.to_nat GRID_SIZE).

(** The cells visited by [for (y ...) for (x ...)], row by row. *)
Definition grid_cells : list (nat * nat) := list_prod grid_range grid_range.

(** ** Data *)

(** [interface Position { x: number; y: number }] *)
Record Position := mkPosition { pos_x : Z; pos_y : Z }.

(** [boolean[][]] and [number[][]]. *)
Abbreviation Pattern := (list (list bool)).
Abbreviation Painted := (list (list (option Z))).

(** A pending [setTimeout] callback.  The completion check closes over the
    [targetPattern] of the render that created it and over the grid
    [newPattern] built by the click; the other callback advances the level. *)
Inductive Timer :=
| CompletionCheck (target : Pattern) (newPattern : Painted)
| LevelAdvance.

(** The [useState] cells of the component, and the pending timers. *)
Record State := mkState {
  targetPattern : Pattern;
  paintedPattern : Painted;
  currentStroke : list Position;
  startingPoint : option Position;
  isDrawing : bool;
  level : Z;
  isCompleted : bool;
  timers : list Timer
}.

(** The path taken through [handleCellClick]: one of the two silent returns
    (or the fall-through of an invalid move), the revert branch, or the
    extend branch. *)
Inductive Branch := Rejected | Reverted | Extended.

#[global] Instance Branch_eq_dec : EqDecision Branch.
Proof. solve_decision. Defined.

(** ** JavaScript array accesses *)

(** [grid[y][x]] used as a condition: a missing row throws, a missing cell is
    [undefined], which is falsy. *)
Definition truthy_at (g : Pattern) (y x : nat) : option bool :=
  row ← g !! y; Some (default false (row !! x)).

(** [grid[y][x]] on the painted grid: a missing row throws; a missing cell and
    a hole both read as [undefined]. *)
Definition read_cell (g : Painted) (y x : nat) : option (option Z) :=
  row ← g !! y; Some (mjoin (row !! x)).

(** [row[x] = v]: in range the cell is replaced, past the end the row grows
    and the cells in between are holes. *)
Definition js_write (row : list (option Z)) (x : nat) (v : Z) : list (option Z) :=
  if decide (x < length row)%nat
  then <[x := Some v]> row
  else row ++ replicate (x - length row) None ++ [Some v].

(** [grid[y][x] = v]: a missing row throws. *)
Definition write_cell (g : Painted) (y x : nat) (v : Z) : option Painted :=
  row ← g !! y; Some (<[y := js_write row x v]> g).

(** A [for] loop whose body may throw. *)
Fixpoint forM {St Ix : Type} (body : Ix → St → option St) (idxs : list Ix)
    (s : St) : option St :=
  match idxs with
  | [] => Some s
  | i :: rest => s' ← body i s; forM body rest s'
  end.

(** ** Level generation *)

(** [pattern[y][x] = b] inside [generateLevel]; every index there is a loop
    counter or a literal below [GRID_SIZE], so the write is in range. *)
Definition set_target (p : Pattern) (y x : nat) (b : bool) : Pattern :=
  alter (λ row, <[x := b]> row) y p.

Definition blank_pattern : Pattern :=
  replicate (Z.to_nat GRID_SIZE) (replicate (Z.to_nat GRID_SIZE) false).

Definition blank_painted : Painted :=
  replicate (Z.to_nat GRID_SIZE) (replicate (Z.to_nat GRID_SIZE) (Some 0)).

(** The pattern and the start point built by [generateLevel levelNum]. *)
Definition levelShape (levelNum : Z) : Pattern * Position :=
  let pattern := blank_pattern in
  if levelNum =? 1 then
    (* Simple L-shape *)
    let pattern := foldl (λ p y, set_target p y 1 true) pattern (seq 1 5) in
    let pattern := foldl (λ p x, set_target p 5 x true) pattern (seq 1 5) in
    (pattern, mkPosition 1 1)
  else if levelNum =? 2 then
    (* Rectangle with hole in middle *)
    let pattern :=
      foldl (λ p y, foldl (λ p x, set_target p y x true) p (seq 1 6))
            pattern (seq 1 6) in
    let pattern := set_target pattern 3 3 false in
    let pattern := set_target pattern 3 4 false in
    let pattern := set_target pattern 4 3 false in
    let pattern := set_target pattern 4 4 false in
    (pattern, mkPosition 1 1)
  else if levelNum =? 3 then
    (* Cross shape *)
    let pattern :=
      foldl (λ p y, set_target (set_target p y 3 true) y 4 true)
            pattern (seq 1 6) in
    let pattern :=
      foldl (λ p x, set_target (set_target p 3 x true) 4 x true)
            pattern (seq 1 6) in
    (pattern, mkPosition 3 1)
  else if levelNum =? 4 then
    (* Zigzag pattern *)
    let pattern :=
      foldl (λ p x, set_target (set_target (set_target p 1 x true) 3 x true)
                               5 x true)
            pattern (seq 1 6) in
    let pattern :=
      foldl (λ p y, set_target (set_target p y 1 true) y 6 true)
            pattern (seq 1 5) in
    (pattern, mkPosition 1 1)
  else
    (* Complex spiral-like pattern *)
    let center := GRID_SIZE / 2 in
    let pattern :=
      foldl (λ p y,
               foldl (λ p x,
                        let distance :=
                          Z.abs (Z.of_nat x - center) + Z.abs (Z.of_nat y - center) in
                        if (1 <=? distance) && (distance <=? 3)
                        then set_target p y x true else p)
                     p (seq 1 6))
            pattern (seq 1 6) in
    let pattern := set_target pattern 2 2 false in
    let pattern := set_target pattern 5 5 false in
    (pattern, mkPosition 1 center).

(** [generateLevel]: the six state setters; [level] and the pending timers
    are not touched. *)
Definition generateLevel (s : State) (levelNum : Z) : State :=
  let '(pattern, startPoint) := levelShape levelNum in
  {| targetPattern := pattern;
     paintedPattern := blank_painted;
     currentStroke := [];
     startingPoint := Some startPoint;
     isDrawing := false;
     level := level s;
     isCompleted := false;
     timers := timers s |}.

(** ** The stroke engine *)

(** [checkCompletion]: the first target cell whose order is [0] ends both
    loops with [false].  The painted grid is read only where the target grid
    holds [true]. *)
Fixpoint check_cells (target : Pattern) (painted : Painted)
    (cells : list (nat * nat)) : option bool :=
  match cells with
  | [] => Some true
  | (y, x) :: rest =>
      t ← truthy_at target y x;
      if t : bool then
        c ← read_cell painted y x;
        if decide (c = Some 0) then Some false
        else check_cells target painted rest
      else check_cells target painted rest
  end.

Definition checkCompletion (target : Pattern) (painted : Painted) : option bool :=
  check_cells target painted grid_cells.

(** [areAdjacent] *)
Definition areAdjacent (pos1 pos2 : Position) : bool :=
  let dx := Z.abs (pos_x pos1 - pos_x pos2) in
  let dy := Z.abs (pos_y pos1 - pos_y pos2) in
  ((dx =? 1) && (dy =? 0)) || ((dx =? 0) && (dy =? 1)).

(** The body of the two clearing loops of the revert branch:
    [if (newPainted[sy][sx] > currentOrder) newPainted[sy][sx] = 0]. *)
Definition clear_body (currentOrder : Z) (cell : nat * nat) (newPainted : Painted)
  : option Painted :=
  let '(sy, sx) := cell in
  c ← read_cell newPainted sy sx;
  match c with
  | Some v => if currentOrder <? v then write_cell newPainted sy sx 0
              else Some newPainted
  | None => Some newPainted
  end.

(** [isValidMove] *)
Definition isValidMove (s : State) (x y : Z) : bool :=
  match currentStroke s with
  | [] =>
      match startingPoint s with
      | Some sp => (x =? pos_x sp) && (y =? pos_y sp)
      | None => false
      end
  | _ =>
      match last (currentStroke s) with
      | Some l => areAdjacent l (mkPosition x y)
      | None => false
      end
  end.

(** [setCurrentStroke] and [setPaintedPattern] together, and the timers
    pending after the handler; the other state cells are kept. *)
Definition setPaint (s : State) (stroke : list Position) (painted : Painted)
    (pending : list Timer) : State :=
  {| targetPattern := targetPattern s;
     paintedPattern := painted;
     currentStroke := stroke;
     startingPoint := startingPoint s;
     isDrawing := isDrawing s;
     level := level s;
     isCompleted := isCompleted s;
     timers := pending |}.

(** [handleCellClick].  The result carries the branch taken and the state
    after the setters have run. *)
Definition handleCellClick (s : State) (x y : Z) : option (Branch * State) :=
  if (x <? 0) || (x >=? GRID_SIZE) || (y <? 0) || (y >=? GRID_SIZE)
  then Some (Rejected, s)
  else
    let yi := Z.to_nat y in
    let xi := Z.to_nat x in
    t ← truthy_at (targetPattern s) yi xi;
    if negb t then Some (Rejected, s)
    else
      currentOrder ← read_cell (paintedPattern s) yi xi;
      let extend :=
        if isValidMove s x y then
          let newStroke := currentStroke s ++ [mkPosition x y] in
          let newOrder := Z.of_nat (length newStroke) in
          newPattern ← write_cell (paintedPattern s) yi xi newOrder;
          Some (Extended,
                setPaint s newStroke newPattern
                  (timers s ++ [CompletionCheck (targetPattern s) newPattern]))
        else Some (Rejected, s) in
      match currentOrder with
      | Some k =>
          if 0 <? k then
            (* clicking on an already painted cell: revert to that point *)
            let newStroke := take (Z.to_nat k) (currentStroke s) in
            newPainted ← forM (clear_body k) grid_cells (paintedPattern s);
            Some (Reverted, setPaint s newStroke newPainted (timers s))
          else extend
      | None => extend (* [undefined > 0] is false *)
      end.

(** ** Pointer handlers, reset and timers *)

Definition setIsDrawing (s : State) (b : bool) : State :=
  {| targetPattern := targetPattern s;
     paintedPattern := paintedPattern s;
     currentStroke := currentStroke s;
     startingPoint := startingPoint s;
     isDrawing := b;
     level := level s;
     isCompleted := isCompleted s;
     timers := timers s |}.

(** [handlePointerDown], with the cell [(x, y)] the pointer is over already
    computed from the client coordinates. *)
Definition handlePointerDown (s : State) (x y : Z) : option State :=
  if isCompleted s then Some s
  else r ← handleCellClick (setIsDrawing s true) x y; Some r.2.

(** [handlePointerMove] *)
Definition handlePointerMove (s : State) (x y : Z) : option State :=
  if negb (isDrawing s) || isCompleted s then Some s
  else r ← handleCellClick s x y; Some r.2.

(** [handlePointerUp] *)
Definition handlePointerUp (s : State) : State := setIsDrawing s false.

(** [resetLevel] *)
Definition resetLevel (s : State) : State := generateLevel s (level s).

(** The callback of the 50 ms timer started by the extend branch: when the
    check on the captured grids succeeds, [isCompleted] is set and the
    2000 ms timer that advances the level is started. *)
Definition completionCheckFires (s : State) (target : Pattern)
    (newPattern : Painted) (pending : list Timer) : option State :=
  done ← checkCompletion target newPattern;
  if done : bool then
    Some {| targetPattern := targetPattern s;
            paintedPattern := paintedPattern s;
            currentStroke := currentStroke s;
            startingPoint := startingPoint s;
            isDrawing := isDrawing s;
            level := level s;
            isCompleted := true;
            timers := pending ++ [LevelAdvance] |}
  else Some (setPaint s (currentStroke s) (paintedPattern s) pending).

(** The callback of the 2000 ms timer: [setLevel(prev => prev + 1)], after
    which the effect that depends on [level] runs [generateLevel(level)]. *)
Definition levelAdvanceFires (s : State) (pending : list Timer) : State :=
  let s' := {| targetPattern := targetPattern s;
               paintedPattern := paintedPattern s;
               currentStroke := currentStroke s;
               startingPoint := startingPoint s;
               isDrawing := isDrawing s;
               level := level s + 1;
               isCompleted := isCompleted s;
               timers := pending |} in
  generateLevel s' (level s').

(** The [i]-th pending timer expires.  Which pending timer expires first
    depends on real time, which is not modelled: any of them may. *)
Definition timerFires (s : State) (i : nat) : option State :=
  match timers s !! i with
  | None => Some s
  | Some (CompletionCheck target newPattern) =>
      completionCheckFires s target newPattern (delete i (timers s))
  | Some LevelAdvance => Some (levelAdvanceFires s (delete i (timers s)))
  end.

(** What can happen to the mounted component. *)
Inductive Event :=
| PointerDown (x y : Z)
| PointerMove (x y : Z)
| PointerUp
| ResetClick
| TimerFires (i : nat).

Definition step (s : State) (e : Event) : option State :=
  match e with
  | PointerDown x y => handlePointerDown s x y
  | PointerMove x y => handlePointerMove s x y
  | PointerUp => Some (handlePointerUp s)
  | ResetClick => Some (resetLevel s)
  | TimerFires i => timerFires s i
  end.

Fixpoint run (s : State) (events : list Event) : option State :=
  match events with
  | [] => Some s
  | e :: rest => s' ← step s e; run s' rest
  end.

(** The [useState] defaults, and the state once the effect of the first
    render has run [generateLevel(level)]. *)
Definition initialState : State :=
  {| targetPattern := [];
     paintedPattern := [];
     currentStroke := [];
     startingPoint := None;
     isDrawing := false;
     level := 1;
     isCompleted := false;
     timers := [] |}.

Definition mounted : State := generateLevel initialState (level initialState).

(** ** The outcome of a touch, as the specification names it *)

Inductive TouchResult := rejected | extended | reverted | completed.

(** The result of a touch: the branch of [handleCellClick], [completed]
    standing for an extension whose completion check, run on the grids the
    timer captured, succeeds. *)
Definition touchResult (s : State) (x y : Z) : option TouchResult :=
  r ← handleCellClick s x y;
  match r.1 with
  | Rejected => Some rejected
  | Reverted => Some reverted
  | Extended =>
      done ← checkCompletion (targetPattern s) (paintedPattern r.2);
      Some (if done : bool then completed else extended)
  end.

(** ** Reading the grids in statements *)

Definition in_grid (x y : Z) : Prop :=
  0 ≤ x < GRID_SIZE ∧ 0 ≤ y < GRID_SIZE.

(** Whether cell [(x, y)] is a target cell. *)
Definition targetAt (g : Pattern) (x y : Z) : bool :=
  default false (g !! Z.to_nat y ≫= λ row, row !! Z.to_nat x).

(** The paint order of cell [(x, y)]. *)
Definition orderAt (g : Painted) (x y : Z) : Z :=
  default 0 (g !! Z.to_nat y ≫= λ row, mjoin (row !! Z.to_nat x)).

(** Grids of [GRID_SIZE] rows of [GRID_SIZE] cells, without holes. *)
Definition pattern_ok (g : Pattern) : Prop :=
  length g = Z.to_nat GRID_SIZE ∧
  Forall (λ row, length row = Z.to_nat GRID_SIZE) g.

Definition painted_ok (g : Painted) : Prop :=
  length g = Z.to_nat GRID_SIZE ∧
  Forall (λ row, length row = Z.to_nat GRID_SIZE ∧ Forall is_Some row) g.

Definition shape_ok (s : State) : Prop :=
  pattern_ok (targetPattern s) ∧ painted_ok (paintedPattern s).

Definition timer_ok (t : Timer) : Prop :=
  match t with
  | CompletionCheck target newPattern => pattern_ok target ∧ painted_ok newPattern
  | LevelAdvance => True
  end.

(** Every target cell has a nonzero paint order. *)
Definition covered (target : Pattern) (painted : Painted) : Prop :=
  ∀ x y, in_grid x y → targetAt target x y = true → orderAt painted x y ≠ 0.

(** Stroke and paint orders describe each other: the cell at index [i] of
    the stroke is the cell of order [i + 1]. *)
Definition consistent (s : State) : Prop :=
  (∀ p, p ∈ currentStroke s →
        in_grid (pos_x p) (pos_y p) ∧
        targetAt (targetPattern s) (pos_x p) (pos_y p) = true) ∧
  (∀ x y, in_grid x y → 0 ≤ orderAt (paintedPattern s) x y) ∧
  (∀ x y (i : nat), in_grid x y →
        orderAt (paintedPattern s) x y = Z.of_nat (S i) ↔
        currentStroke s !! i = Some (mkPosition x y)).

(** The stroke is a path of adjacent cells that begins at the start point. *)
Definition is_path (s : State) : Prop :=
  (∀ (i : nat) p q, currentStroke s !! i = Some p →
        currentStroke s !! S i = Some q → areAdjacent p q = true) ∧
  (∀ p, head (currentStroke s) = Some p → startingPoint s = Some p).

Definition Inv (s : State) : Prop :=
  shape_ok s ∧ Forall timer_ok (timers s) ∧ consistent s ∧ is_path s.

(** A session that has just begun, on any pattern. *)
Definition fresh_session (s : State) : Prop :=
  pattern_ok (targetPattern s) ∧
  paintedPattern s = blank_painted ∧
  currentStroke s = [] ∧
  timers s = [].

(** ** Auxiliary definitions of the proofs *)

(** What the clearing loops do to one paint order. *)
Definition clear_order (k v : Z) : Z := if k <? v then 0 else v.

(** Loop counters below [GRID_SIZE]. *)
Definition cells_in_range (cells : list (nat * nat)) : Prop :=
  Forall (λ c, (c.1 < Z.to_nat GRID_SIZE)%nat ∧ (c.2 < Z.to_nat GRID_SIZE)%nat)
         cells.

(** What [handleCellClick] does on a well-shaped state, branch by branch. *)
Inductive click_spec (s : State) (x y : Z) : Branch → State → Prop :=
| click_rejected :
    ¬ in_grid x y ∨
    targetAt (targetPattern s) x y = false ∨
    (orderAt (paintedPattern s) x y ≤ 0 ∧ isValidMove s x y = false) →
    click_spec s x y Rejected s
| click_reverted g' :
    in_grid x y →
    targetAt (targetPattern s) x y = true →
    0 < orderAt (paintedPattern s) x y →
    painted_ok g' →
    (∀ x' y', in_grid x' y' →
       orderAt g' x' y' =
       clear_order (orderAt (paintedPattern s) x y)
                   (orderAt (paintedPattern s) x' y')) →
    click_spec s x y Reverted
      (setPaint s
         (take (Z.to_nat (orderAt (paintedPattern s) x y)) (currentStroke s))
         g' (timers s))
| click_extended g' :
    in_grid x y →
    targetAt (targetPattern s) x y = true →
    orderAt (paintedPattern s) x y ≤ 0 →
    isValidMove s x y = true →
    painted_ok g' →
    (∀ x' y', in_grid x' y' →
       orderAt g' x' y' =
       if decide (x' = x ∧ y' = y)
       then Z.of_nat (length (currentStroke s ++ [mkPosition x y]))
       else orderAt (paintedPattern s) x' y') →
    click_spec s x y Extended
      (setPaint s (currentStroke s ++ [mkPosition x y]) g'
         (timers s ++ [CompletionCheck (targetPattern s) g'])).


(** ** The properties of a session *)

(** The positive paint orders are exactly [1 .. length stroke], no two cells
    share one, and the stroke lists the cells in paint order. *)
Definition dense_orders (s : State) : Prop :=
  (∀ v : Z,
     (∃ x y, in_grid x y ∧ orderAt (paintedPattern s) x y = v ∧ 0 < v) ↔
     1 ≤ v ≤ Z.of_nat (length (currentStroke s))) ∧
  (∀ x y x' y',
     in_grid x y → in_grid x' y' →
     0 < orderAt (paintedPattern s) x y →
     orderAt (paintedPattern s) x y = orderAt (paintedPattern s) x' y' →
     x = x' ∧ y = y') ∧
  (∀ (i : nat) p,
     currentStroke s !! i = Some p →
     in_grid (pos_x p) (pos_y p) ∧
     orderAt (paintedPattern s) (pos_x p) (pos_y p) = Z.of_nat i + 1).

(** Two cells differ by exactly 1 in exactly one coordinate. *)
Definition grid_adjacent (p q : Position) : Prop :=
  (Z.abs (pos_x p - pos_x q) = 1 ∧ pos_y p = pos_y q) ∨
  (pos_x p = pos_x q ∧ Z.abs (pos_y p - pos_y q) = 1).

Definition stroke_is_path (s : State) : Prop :=
  (∀ (i : nat) p q,
     currentStroke s !! i = Some p → currentStroke s !! S i = Some q →
     grid_adjacent p q) ∧
  (∀ p, head (currentStroke s) = Some p → startingPoint s = Some p).

(** Every target cell of the session is painted. *)
Definition all_painted (s : State) : Prop :=
  ∀ x y, in_grid x y → targetAt (targetPattern s) x y = true →
         0 < orderAt (paintedPattern s) x y.

(** The touches the click handler turns down. *)
Definition rejected_touch (s : State) (x y : Z) : Prop :=
  ¬ in_grid x y ∨
  targetAt (targetPattern s) x y = false ∨
  (orderAt (paintedPattern s) x y = 0 ∧
   ∃ l, last (currentStroke s) = Some l ∧ areAdjacent l (mkPosition x y) = false) ∨
  (currentStroke s = [] ∧ startingPoint s ≠ Some (mkPosition x y)).

(** Pattern and start point are those generated for the current level. *)
Definition level_session (s : State) : Prop :=
  targetPattern s = (levelShape (level s)).1 ∧
  startingPoint s = Some (levelShape (level s)).2.

(** ** A session of level 1 *)

(** The first eight cells of the L of level 1, drawn in one gesture, each
    completion check expiring before the pointer reaches the next cell. *)
Definition eight_cells : list Event :=
  [PointerDown 1 1; TimerFires 0; PointerMove 1 2; TimerFires 0;
   PointerMove 1 3; TimerFires 0; PointerMove 1 4; TimerFires 0;
   PointerMove 1 5; TimerFires 0; PointerMove 2 5; TimerFires 0;
   PointerMove 3 5; TimerFires 0; PointerMove 4 5; TimerFires 0].

(** The pointer enters the last cell [(5, 5)], slips back into [(4, 5)]
    before the 50 ms of the completion check are over, and the check fires. *)
Definition slip_back : list Event :=
  eight_cells ++ [PointerMove 5 5; PointerMove 4 5; TimerFires 0].

(** Three cells of the L of level 1, without any timer having fired yet. *)
Definition three_cells_events : list Event :=
  [PointerDown 1 1; PointerMove 1 2; PointerMove 1 3].

Definition three_cells : State :=
  default mounted (run mounted three_cells_events).

#[global] Arguments forM : simpl never.
#[global] Arguments grid_cells : simpl never.
#[global] Arguments check_cells : simpl never.


(** ** One-stroke solutions of a pattern *)

#[global] Instance Position_eq_dec : EqDecision Position.
Proof. solve_decision. Defined.

(** The cells of the grid, row by row, and the target cells of a pattern. *)
Definition grid_positions : list Position :=
  (λ c : nat * nat, mkPosition (Z.of_nat c.2) (Z.of_nat c.1)) <$> grid_cells.

Definition targets_of (target : Pattern) : list Position :=
  filter (λ p, targetAt target (pos_x p) (pos_y p) = true) grid_positions.

(** Each cell of [suffix] is adjacent, in the sense of [areAdjacent], to the
    one before it, the first one to [l]. *)
Fixpoint chain (l : Position) (suffix : list Position) : Prop :=
  match suffix with
  | [] => True
  | q :: rest => areAdjacent l q = true ∧ chain q rest
  end.

(** A one-stroke solution of the session: a path of adjacent cells that
    begins at the start point and visits every target cell of the grid
    exactly once, and nothing else. *)
Definition one_stroke (s : State) (l : list Position) : Prop :=
  (∃ p rest, l = p :: rest ∧ startingPoint s = Some p ∧ chain p rest) ∧
  NoDup l ∧
  (∀ p, p ∈ l ↔
        in_grid (pos_x p) (pos_y p) ∧
        targetAt (targetPattern s) (pos_x p) (pos_y p) = true).

(** The gesture that draws a list of cells: the pointer goes down on the
    first and moves over the others. *)
Definition draw (l : list Position) : list Event :=
  match l with
  | [] => []
  | p :: rest =>
      PointerDown (pos_x p) (pos_y p)
      :: ((λ q, PointerMove (pos_x q) (pos_y q)) <$> rest)
  end.

(** The four cells next to a cell. *)
Definition neighbours (p : Position) : list Position :=
  [mkPosition (pos_x p + 1) (pos_y p); mkPosition (pos_x p - 1) (pos_y p);
   mkPosition (pos_x p) (pos_y p + 1); mkPosition (pos_x p) (pos_y p - 1)].

Definition in_gridb (x y : Z) : bool :=
  (0 <=? x) && (x <? GRID_SIZE) && (0 <=? y) && (y <? GRID_SIZE).

(** Exhaustive search: can the path that ends at [l] and has visited
    [visited] be continued by [n] more unvisited target cells? *)
Fixpoint extendable (target : Pattern) (n : nat) (l : Position)
    (visited : list Position) : bool :=
  match n with
  | O => true
  | S n' =>
      existsb (λ q, if in_gridb (pos_x q) (pos_y q)
                       && targetAt target (pos_x q) (pos_y q)
                       && negb (bool_decide (q ∈ visited))
                    then extendable target n' q (q :: visited)
                    else false)
              (neighbours l)
  end.

(** Whether a path from [start] through all target cells exists. *)
Definition solvable (target : Pattern) (start : Position) : bool :=
  extendable target (length (targets_of target) - 1) start [start].

(** A pending completion check that will not succeed. *)
Definition check_fails (t : Timer) : Prop :=
  match t with
  | CompletionCheck target newPattern =>
      checkCompletion target newPattern = Some false
  | LevelAdvance => False
  end.

(** A session of level [levelNum] that is not completed and in which no
    pending timer can complete it or advance the level. *)
Definition stuck_at (levelNum : Z) (s : State) : Prop :=
  Inv s ∧ level s = levelNum ∧ level_session s ∧ isCompleted s = false ∧
  Forall check_fails (timers s).

(** A one-stroke solution of each of the first three levels: down and along
    the L; around the outer ring and then the inner ring of the rectangle;
    arm after arm around the cross. *)
Definition levelSolution (levelNum : Z) : list Position :=
  let cell (c : Z * Z) := mkPosition c.1 c.2 in
  if levelNum =? 1 then
    cell <$> [(1,1); (1,2); (1,3); (1,4); (1,5); (2,5); (3,5); (4,5); (5,5)]
  else if levelNum =? 2 then
    cell <$> [(1,1); (2,1); (3,1); (4,1); (5,1); (6,1); (6,2); (6,3); (6,4);
              (6,5); (6,6); (5,6); (4,6); (3,6); (2,6); (1,6); (1,5); (1,4);
              (1,3); (1,2); (2,2); (3,2); (4,2); (5,2); (5,3); (5,4); (5,5);
              (4,5); (3,5); (2,5); (2,4); (2,3)]
  else if levelNum =? 3 then
    cell <$> [(3,1); (4,1); (4,2); (3,2); (3,3); (2,3); (1,3); (1,4); (2,4);
              (3,4); (3,5); (3,6); (4,6); (4,5); (4,4); (5,4); (6,4); (6,3);
              (5,3); (4,3)]
  else [].

(** The events of the pointer: down, move and up. *)
Definition is_pointer_event (e : Event) : bool :=
  match e with
  | PointerDown _ _ | PointerMove _ _ | PointerUp => true
  | ResetClick | TimerFires _ => false
  end.

Definition is_pointer_move (e : Event) : bool :=
  match e with
  | PointerMove _ _ => true
  | _ => false
  end.

(** ** Rendering and pointer coordinates *)

Definition TILE_SIZE : Z := 40.
Definition TILE_GAP : Z := 6.

(** [array[i]] for a number [i] that is an integer: a negative index and an
    index past the end both read as [undefined]. *)
Definition js_index {A : Type} (l : list A) (i : Z) : option A :=
  if i <? 0 then None else l !! Z.to_nat i.

(** [targetPattern[y] && targetPattern[y][x]], used as a condition. *)
Definition isTarget (s : State) (x y : Z) : bool :=
  default false (js_index (targetPattern s) y ≫= λ row, js_index row x).

(** The strings ['empty'], ['target'], ['painted'] and ['start']. *)
Inductive CellType := cell_empty | cell_target | cell_painted | cell_start.

(** [getCellType] *)
Definition getCellType (s : State) (x y : Z) : CellType :=
  let paintOrder : option Z :=
    js_index (paintedPattern s) y ≫= λ row, mjoin (js_index row x) in
  let isStart :=
    match startingPoint s with
    | Some sp => (x =? pos_x sp) && (y =? pos_y sp)
                 && bool_decide (paintOrder = Some 0)
    | None => false
    end in
  if negb (isTarget s x y) then cell_empty
  else if match paintOrder with Some k => 0 <? k | None => false end
       then cell_painted
  else if isStart then cell_start
  else cell_target.

(** A rendered grid cell: its cell, its type and its [left] and [top]. *)
Record Tile := mkTile {
  tile_x : Z;
  tile_y : Z;
  tile_type : CellType;
  tile_left : Z;
  tile_top : Z
}.

(** The grid cells of the markup: one tile for each cell of the two nested
    [Array.from] for which [isTarget] holds, [null] for the others. *)
Definition renderTiles (s : State) : list Tile :=
  grid_cells ≫= λ c,
    let x := Z.of_nat c.2 in
    let y := Z.of_nat c.1 in
    if isTarget s x y
    then [mkTile x y (getCellType s x y)
                 (x * (TILE_SIZE + TILE_GAP) + 16)
                 (y * (TILE_SIZE + TILE_GAP) + 16)]
    else [].

(** The starting point indicator is rendered when
    [startingPoint && paintedPattern[startingPoint.y][startingPoint.x] === 0];
    a missing row throws during the render. *)
Definition startIndicator (s : State) : option bool :=
  match startingPoint s with
  | None => Some false
  | Some sp =>
      row ← js_index (paintedPattern s) (pos_y sp);
      Some (bool_decide (mjoin (js_index row (pos_x sp)) = Some 0))
  end.

(** The end points of a stroke line, before its length and angle are
    computed. *)
Record Line := mkLine { fromX : Z; fromY : Z; toX : Z; toY : Z }.

Definition cellCentre (c : Z) : Z :=
  c * (TILE_SIZE + TILE_GAP) + TILE_SIZE / 2 + 16.

(** The callback of [currentStroke.slice(0, -1).map((pos, index) => ...)]
    over the cells from [index] on; [currentStroke[index + 1]] being
    [undefined] would throw. *)
Fixpoint lines_from (stroke : list Position) (index : nat)
    (front : list Position) : option (list Line) :=
  match front with
  | [] => Some []
  | pos :: rest =>
      nextPos ← stroke !! S index;
      lines ← lines_from stroke (S index) rest;
      Some (mkLine (cellCentre (pos_x pos)) (cellCentre (pos_y pos))
                   (cellCentre (pos_x nextPos)) (cellCentre (pos_y nextPos))
            :: lines)
  end.

(** The stroke lines of the markup. *)
Definition strokeLines (s : State) : option (list Line) :=
  if (1 <? length (currentStroke s))%nat
  then lines_from (currentStroke s) 0
         (take (length (currentStroke s) - 1) (currentStroke s))
  else Some [].

(** The cell index the pointer handlers compute along one axis,
    [Math.floor((client - origin - 16) / (TILE_SIZE + TILE_GAP))], for
    integer pixel coordinates. *)
Definition cellAt (client origin : Z) : Z :=
  (client - origin - 16) / (TILE_SIZE + TILE_GAP).

(** [handlePointerDown] on a mouse event at [(clientX, clientY)], the
    container's rectangle beginning at [(rectLeft, rectTop)]. *)
Definition mouseDown (s : State) (clientX clientY rectLeft rectTop : Z)
  : option State :=
  handlePointerDown s (cellAt clientX rectLeft) (cellAt clientY rectTop).

(** [handlePointerMove] on a mouse event. *)
Definition mouseMove (s : State) (clientX clientY rectLeft rectTop : Z)
  : option State :=
  handlePointerMove s (cellAt clientX rectLeft) (cellAt clientY rectTop).

(** ** Playing a level *)

(** Drawing a path, the completion check of each touch firing before the
    next touch, and then the timer that advances the level. *)
Definition play (path : list Position) : list Event :=
  (draw path ≫= λ e, [e; TimerFires 0]) ++ [TimerFires 0].

(** The first three levels played one after the other. *)
Definition play_three_levels : list Event :=
  play (levelSolution 1) ++ play (levelSolution 2) ++ play (levelSolution 3).

(** The states the theorems are evaluated at. *)
Definition two_cells : State :=
  default mounted (run mounted [PointerDown 1 1; PointerMove 1 2]).

Definition level_one_painted : State :=
  default mounted (run mounted (eight_cells ++ [PointerMove 5 5])).

Definition level_four : State :=
  generateLevel (mkState [] [] [] None false 4 false []) 4.

(** * Proofs *)

(** ** Grid accesses on well-shaped grids *)

Section grid_lemmas.
Implicit Types (g : Painted) (t : Pattern) (x y : nat) (v k : Z).

Lemma grid_cells_spec y x :
  (y, x) ∈ grid_cells ↔
  (y < Z.to_nat GRID_SIZE)%nat ∧ (x < Z.to_nat GRID_SIZE)%nat.
Proof.
  unfold grid_cells, grid_range.
  rewrite list_elem_of_In, in_prod_iff, !in_seq. lia.
Qed.

Lemma targetAt_nat t y x :
  targetAt t (Z.of_nat x) (Z.of_nat y) = default false (t !! y ≫= λ row, row !! x).
Proof. unfold targetAt. by rewrite !Nat2Z.id. Qed.

Lemma orderAt_nat g y x :
  orderAt g (Z.of_nat x) (Z.of_nat y) = default 0 (g !! y ≫= λ row, mjoin (row !! x)).
Proof. unfold orderAt. by rewrite !Nat2Z.id. Qed.

Lemma pattern_ok_row t y :
  pattern_ok t → (y < Z.to_nat GRID_SIZE)%nat → is_Some (t !! y).
Proof. intros [Hlen _] Hy. apply lookup_lt_is_Some. lia. Qed.

Lemma truthy_at_ok t y x :
  pattern_ok t → (y < Z.to_nat GRID_SIZE)%nat →
  truthy_at t y x = Some (targetAt t (Z.of_nat x) (Z.of_nat y)).
Proof.
  intros Ht Hy. destruct (pattern_ok_row t y Ht Hy) as [row Hrow].
  unfold truthy_at. rewrite targetAt_nat, Hrow. reflexivity.
Qed.

Lemma painted_ok_cell g y x :
  painted_ok g →
  (y < Z.to_nat GRID_SIZE)%nat → (x < Z.to_nat GRID_SIZE)%nat →
  ∃ row v, g !! y = Some row ∧ row !! x = Some (Some v) ∧
           length row = Z.to_nat GRID_SIZE.
Proof.
  intros [Hlen Hrows] Hy Hx.
  destruct (lookup_lt_is_Some_2 g y) as [row Hrow]; [lia|].
  rewrite Forall_lookup in Hrows. destruct (Hrows _ _ Hrow) as [Hl Hcells].
  destruct (lookup_lt_is_Some_2 row x) as [c Hc]; [lia|].
  rewrite Forall_lookup in Hcells. destruct (Hcells _ _ Hc) as [v ->].
  eauto.
Qed.

Lemma read_cell_ok g y x :
  painted_ok g →
  (y < Z.to_nat GRID_SIZE)%nat → (x < Z.to_nat GRID_SIZE)%nat →
  read_cell g y x = Some (Some (orderAt g (Z.of_nat x) (Z.of_nat y))).
Proof.
  intros Hg Hy Hx.
  destruct (painted_ok_cell g y x Hg Hy Hx) as (row & v & Hrow & Hv & _).
  unfold read_cell. rewrite orderAt_nat, Hrow. simpl. by rewrite Hv.
Qed.

(** An in-range write replaces one cell and keeps the shape. *)
Lemma write_cell_ok g y x v :
  painted_ok g →
  (y < Z.to_nat GRID_SIZE)%nat → (x < Z.to_nat GRID_SIZE)%nat →
  ∃ g', write_cell g y x v = Some g' ∧ painted_ok g' ∧
        ∀ y' x', orderAt g' (Z.of_nat x') (Z.of_nat y') =
                 if decide (y' = y ∧ x' = x) then v
                 else orderAt g (Z.of_nat x') (Z.of_nat y').
Proof.
  intros Hg Hy Hx.
  destruct (painted_ok_cell g y x Hg Hy Hx) as (row & c & Hrow & Hc & Hl).
  destruct Hg as [Hlen Hrows].
  exists (<[y := <[x := Some v]> row]> g). split; [|split].
  - unfold write_cell, js_write. rewrite Hrow. simpl.
    rewrite decide_True by lia. reflexivity.
  - split; [by rewrite length_insert|].
    apply Forall_insert; [done|]. rewrite length_insert. split; [done|].
    rewrite Forall_lookup in Hrows. destruct (Hrows _ _ Hrow) as [_ Hcells].
    apply Forall_insert; [done|]. by eexists.
  - intros y' x'. rewrite !orderAt_nat.
    destruct (decide (y' = y)) as [->|Hne].
    + rewrite list_lookup_insert_eq by lia. simpl.
      destruct (decide (x' = x)) as [->|Hnx].
      * rewrite list_lookup_insert_eq by lia. by rewrite decide_True.
      * rewrite list_lookup_insert_ne by done. rewrite Hrow. simpl.
        case_decide as Hd; [by destruct Hd|reflexivity].
    + rewrite list_lookup_insert_ne by done.
      case_decide as Hd; [by destruct Hd|reflexivity].
Qed.


Lemma forM_cons {St Ix : Type} (body : Ix → St → option St) i rest (s : St) :
  forM body (i :: rest) s = body i s ≫= forM body rest.
Proof. reflexivity. Qed.

Lemma check_cells_cons t g y x rest :
  check_cells t g ((y, x) :: rest) =
  truthy_at t y x ≫= λ b : bool,
    if b then
      read_cell g y x ≫= λ c,
        if decide (c = Some 0) then Some false else check_cells t g rest
    else check_cells t g rest.
Proof. reflexivity. Qed.

Lemma clear_order_idemp k v : clear_order k (clear_order k v) = clear_order k v.
Proof. unfold clear_order. repeat case_match; lia. Qed.

Lemma clear_body_ok k g y x :
  painted_ok g →
  (y < Z.to_nat GRID_SIZE)%nat → (x < Z.to_nat GRID_SIZE)%nat →
  ∃ g', clear_body k (y, x) g = Some g' ∧ painted_ok g' ∧
        ∀ y' x', orderAt g' (Z.of_nat x') (Z.of_nat y') =
                 if decide (y' = y ∧ x' = x)
                 then clear_order k (orderAt g (Z.of_nat x') (Z.of_nat y'))
                 else orderAt g (Z.of_nat x') (Z.of_nat y').
Proof.
  intros Hg Hy Hx. unfold clear_body.
  rewrite (read_cell_ok g y x Hg Hy Hx). simpl.
  destruct (k <? orderAt g (Z.of_nat x) (Z.of_nat y)) eqn:Hk.
  - destruct (write_cell_ok g y x 0 Hg Hy Hx) as (g' & Hw & Hok & Hcells).
    exists g'. split; [done|]. split; [done|].
    intros y' x'. rewrite Hcells. case_decide as Hd; [|done].
    destruct Hd as [-> ->]. unfold clear_order. by rewrite Hk.
  - exists g. split; [done|]. split; [done|].
    intros y' x'. case_decide as Hd; [|done].
    destruct Hd as [-> ->]. unfold clear_order. by rewrite Hk.
Qed.

Lemma grid_cells_in_range : cells_in_range grid_cells.
Proof.
  apply Forall_forall. intros [y x] Hin. by apply grid_cells_spec.
Qed.

(** The clearing loops never throw on a well-shaped grid, keep its shape,
    and clear exactly the visited cells whose order exceeds [k]. *)
Lemma clear_loop_ok k cells :
  cells_in_range cells →
  ∀ g, painted_ok g →
  ∃ g', forM (clear_body k) cells g = Some g' ∧ painted_ok g' ∧
        ∀ y' x', orderAt g' (Z.of_nat x') (Z.of_nat y') =
                 if decide ((y', x') ∈ cells)
                 then clear_order k (orderAt g (Z.of_nat x') (Z.of_nat y'))
                 else orderAt g (Z.of_nat x') (Z.of_nat y').
Proof.
  induction cells as [|[y x] rest IH]; intros Hr g Hg.
  - exists g. split; [done|]. split; [done|]. intros y' x'.
    case_decide as Hd; [|done]. by apply elem_of_nil in Hd.
  - apply Forall_cons in Hr as [[Hy Hx] Hr]. simpl in Hy, Hx.
    destruct (clear_body_ok k g y x Hg Hy Hx) as (g1 & Hb & Hok1 & Hc1).
    destruct (IH Hr g1 Hok1) as (g' & Hloop & Hok' & Hc').
    exists g'. split; [by rewrite forM_cons, Hb|]. split; [done|].
    intros y' x'. rewrite Hc', Hc1.
    destruct (decide (y' = y ∧ x' = x)) as [[-> ->]|Hne].
    + rewrite (decide_True (P := (y, x) ∈ (y, x) :: rest)) by apply list_elem_of_here.
      case_decide; [apply clear_order_idemp|done].
    + destruct (decide ((y', x') ∈ rest)) as [Hin|Hnin].
      * by rewrite decide_True by (by apply list_elem_of_further).
      * rewrite decide_False; [done|].
        intros Hin. apply elem_of_cons in Hin as [Heq|Hin]; [|done].
        inversion Heq; subst. by apply Hne.
Qed.

(** [check_cells] never throws on well-shaped grids and answers whether
    every visited target cell has a nonzero order. *)
Lemma check_cells_ok t g cells :
  pattern_ok t → painted_ok g → cells_in_range cells →
  ∃ b, check_cells t g cells = Some b ∧
       (b = true ↔
        ∀ y x, (y, x) ∈ cells →
               targetAt t (Z.of_nat x) (Z.of_nat y) = true →
               orderAt g (Z.of_nat x) (Z.of_nat y) ≠ 0).
Proof.
  intros Ht Hg. induction cells as [|[y x] rest IH]; intros Hr.
  - exists true. split; [done|]. split; [|done].
    intros _ y x Hin. by apply elem_of_nil in Hin.
  - apply Forall_cons in Hr as [[Hy Hx] Hr]. simpl in Hy, Hx.
    destruct (IH Hr) as (b & Hb & Hiff). rewrite check_cells_cons.
    rewrite (truthy_at_ok t y x Ht Hy). simpl.
    destruct (targetAt t (Z.of_nat x) (Z.of_nat y)) eqn:Htgt.
    + rewrite (read_cell_ok g y x Hg Hy Hx). simpl.
      case_decide as Hz.
      * exists false. split; [done|]. split; [done|].
        intros Hall. exfalso. apply (Hall y x); [apply list_elem_of_here|done|].
        congruence.
      * exists b. split; [done|]. rewrite Hiff. split.
        -- intros Hall y' x' Hin. apply elem_of_cons in Hin as [Heq|Hin].
           ++ inversion Heq; subst. intros _ Hzero. apply Hz. by rewrite Hzero.
           ++ by apply Hall.
        -- intros Hall y' x' Hin. apply Hall. by apply list_elem_of_further.
    + exists b. split; [done|]. rewrite Hiff. split.
      * intros Hall y' x' Hin. apply elem_of_cons in Hin as [Heq|Hin].
        -- inversion Heq; subst. congruence.
        -- by apply Hall.
      * intros Hall y' x' Hin. apply Hall. by apply list_elem_of_further.
Qed.
End grid_lemmas.

(** The same facts with the integer coordinates of a touch. *)
Section touch_coordinates.
Implicit Types (g : Painted) (t : Pattern) (x y k v : Z).

Lemma in_grid_nat x y :
  in_grid x y →
  (Z.to_nat y < Z.to_nat GRID_SIZE)%nat ∧ (Z.to_nat x < Z.to_nat GRID_SIZE)%nat ∧
  Z.of_nat (Z.to_nat x) = x ∧ Z.of_nat (Z.to_nat y) = y.
Proof. unfold in_grid, GRID_SIZE. lia. Qed.

Lemma in_grid_of_nat (x y : nat) :
  in_grid (Z.of_nat x) (Z.of_nat y) ↔
  (y < Z.to_nat GRID_SIZE)%nat ∧ (x < Z.to_nat GRID_SIZE)%nat.
Proof. unfold in_grid, GRID_SIZE. lia. Qed.

Lemma checkCompletion_ok t g :
  pattern_ok t → painted_ok g →
  ∃ b, checkCompletion t g = Some b ∧ (b = true ↔ covered t g).
Proof.
  intros Ht Hg.
  destruct (check_cells_ok t g grid_cells Ht Hg grid_cells_in_range)
    as (b & Hb & Hiff).
  exists b. split; [done|]. rewrite Hiff. unfold covered. split.
  - intros Hall x y Hin. destruct (in_grid_nat x y Hin) as (Hy & Hx & Ex & Ey).
    rewrite <- Ex, <- Ey. apply Hall. by apply grid_cells_spec.
  - intros Hall y x Hin. apply Hall. apply in_grid_of_nat.
    by apply grid_cells_spec.
Qed.

Lemma clear_grid_ok k g :
  painted_ok g →
  ∃ g', forM (clear_body k) grid_cells g = Some g' ∧ painted_ok g' ∧
        ∀ x y, in_grid x y → orderAt g' x y = clear_order k (orderAt g x y).
Proof.
  intros Hg.
  destruct (clear_loop_ok k grid_cells grid_cells_in_range g Hg)
    as (g' & Hloop & Hok & Hcells).
  exists g'. split; [done|]. split; [done|].
  intros x y Hin. destruct (in_grid_nat x y Hin) as (Hy & Hx & Ex & Ey).
  specialize (Hcells (Z.to_nat y) (Z.to_nat x)). rewrite Ex, Ey in Hcells.
  rewrite Hcells. rewrite decide_True; [done|]. by apply grid_cells_spec.
Qed.

Lemma paint_cell_ok g x y v :
  painted_ok g → in_grid x y →
  ∃ g', write_cell g (Z.to_nat y) (Z.to_nat x) v = Some g' ∧ painted_ok g' ∧
        ∀ x' y', in_grid x' y' →
                 orderAt g' x' y' =
                 if decide (x' = x ∧ y' = y) then v else orderAt g x' y'.
Proof.
  intros Hg Hin. destruct (in_grid_nat x y Hin) as (Hy & Hx & Ex & Ey).
  destruct (write_cell_ok g _ _ v Hg Hy Hx) as (g' & Hw & Hok & Hcells).
  exists g'. split; [done|]. split; [done|].
  intros x' y' Hin'. destruct (in_grid_nat x' y' Hin') as (Hy' & Hx' & Ex' & Ey').
  specialize (Hcells (Z.to_nat y') (Z.to_nat x')). rewrite Ex', Ey' in Hcells.
  rewrite Hcells. repeat case_decide; try done; exfalso.
  - destruct H as [E1 E2]. apply H0. split; lia.
  - destruct H0 as [-> ->]. by apply H.
Qed.
End touch_coordinates.

Section click.
Implicit Types (s : State) (x y : Z).

Lemma bounds_test_in x y :
  in_grid x y →
  (x <? 0) || (x >=? GRID_SIZE) || (y <? 0) || (y >=? GRID_SIZE) = false.
Proof.
  unfold in_grid, GRID_SIZE. intros H. rewrite !Z.geb_leb.
  rewrite !orb_false_iff, !Z.ltb_ge, !Z.leb_gt. lia.
Qed.

Lemma bounds_test_out x y :
  ¬ in_grid x y →
  (x <? 0) || (x >=? GRID_SIZE) || (y <? 0) || (y >=? GRID_SIZE) = true.
Proof.
  unfold in_grid, GRID_SIZE. intros H. rewrite !Z.geb_leb.
  rewrite !orb_true_iff, !Z.ltb_lt, !Z.leb_le. lia.
Qed.

(** On the [useState] defaults, before the effect of the first render has
    generated a level, the grids have no rows: a touch inside the grid then
    indexes [undefined] and throws. *)
Example handleCellClick_before_mount : handleCellClick initialState 0 0 = None.
Proof. reflexivity. Qed.

(** An out-of-grid touch returns before any array is indexed: whatever the
    grids hold, nothing is read and the state is kept. *)
Lemma handleCellClick_out s x y :
  ¬ in_grid x y → handleCellClick s x y = Some (Rejected, s).
Proof.
  intros Hout. unfold handleCellClick. by rewrite bounds_test_out.
Qed.

Lemma handleCellClick_spec s x y :
  shape_ok s →
  ∃ b s', handleCellClick s x y = Some (b, s') ∧ click_spec s x y b s'.
Proof.
  intros [Ht Hg]. destruct (decide (in_grid x y)) as [Hin|Hout].
  2:{ exists Rejected, s. split; [by apply handleCellClick_out|].
      constructor. by left. }
  destruct (in_grid_nat x y Hin) as (Hy & Hx & Ex & Ey).
  unfold handleCellClick. rewrite (bounds_test_in x y Hin). cbv zeta.
  rewrite (truthy_at_ok _ _ (Z.to_nat x) Ht Hy), Ex, Ey. simpl.
  destruct (targetAt (targetPattern s) x y) eqn:Htgt; simpl.
  2:{ exists Rejected, s. split; [done|]. constructor. right. by left. }
  rewrite (read_cell_ok _ _ _ Hg Hy Hx), Ex, Ey. simpl.
  destruct (0 <? orderAt (paintedPattern s) x y) eqn:Hpos.
  - apply Z.ltb_lt in Hpos.
    destruct (clear_grid_ok (orderAt (paintedPattern s) x y) _ Hg)
      as (g' & Hloop & Hok & Hcells).
    rewrite Hloop. simpl. eexists _, _. split; [done|].
    by apply click_reverted.
  - apply Z.ltb_ge in Hpos.
    destruct (isValidMove s x y) eqn:Hvalid.
    + destruct (paint_cell_ok (paintedPattern s) x y
                  (Z.of_nat (length (currentStroke s ++ [mkPosition x y]))) Hg Hin)
        as (g' & Hw & Hok & Hcells).
      rewrite Hw. simpl. eexists _, _. split; [done|].
      by apply click_extended.
    + exists Rejected, s. split; [done|]. constructor. right. right. done.
Qed.
End click.

(** ** The session invariant *)

Section invariant.
Implicit Types (s : State) (x y : Z).

Lemma blank_painted_ok : painted_ok blank_painted.
Proof.
  split; [reflexivity|]. unfold blank_painted.
  apply Forall_replicate. split; [by rewrite length_replicate|].
  apply Forall_replicate. by eexists.
Qed.

Lemma orderAt_blank x y : orderAt blank_painted x y = 0.
Proof.
  unfold orderAt, blank_painted.
  destruct (_ !! Z.to_nat y) as [row|] eqn:Hrow; [|done].
  apply lookup_replicate in Hrow as [-> _].
  change (default 0 (mjoin (replicate (Z.to_nat GRID_SIZE) (Some 0) !! Z.to_nat x)) = 0).
  destruct (_ !! Z.to_nat x) as [c|] eqn:Hc; [|done].
  by apply lookup_replicate in Hc as [-> _].
Qed.

Lemma levelShape_ok levelNum : pattern_ok (levelShape levelNum).1.
Proof.
  unfold levelShape.
  repeat case_match; (split; [reflexivity|vm_compute; repeat constructor]).
Qed.

(** A state with an empty stroke over a blank grid satisfies the invariant. *)
Lemma blank_Inv s :
  pattern_ok (targetPattern s) →
  paintedPattern s = blank_painted →
  currentStroke s = [] →
  Forall timer_ok (timers s) →
  Inv s.
Proof.
  intros Ht Hg Hst Htm. split; [|split; [done|split]].
  - split; [done|]. rewrite Hg. apply blank_painted_ok.
  - split; [|split].
    + intros p Hp. rewrite Hst in Hp. by apply elem_of_nil in Hp.
    + intros x y _. by rewrite Hg, orderAt_blank.
    + intros x y i _. rewrite Hg, orderAt_blank, Hst. split; [lia|done].
  - split.
    + intros i p q Hp. by rewrite Hst in Hp.
    + intros p Hp. by rewrite Hst in Hp.
Qed.

Lemma fresh_Inv s : fresh_session s → Inv s.
Proof.
  intros (Ht & Hg & Hst & Htm). apply blank_Inv; try done.
  rewrite Htm. constructor.
Qed.

Lemma generateLevel_Inv s levelNum :
  Forall timer_ok (timers s) → Inv (generateLevel s levelNum).
Proof.
  intros Htm. unfold generateLevel.
  pose proof (levelShape_ok levelNum) as Hok.
  destruct (levelShape levelNum) as [pattern startPoint].
  by apply blank_Inv.
Qed.

(** The invariant only reads the grids, the stroke, the start point and
    the pending timers. *)
Lemma Inv_same_session s s' :
  targetPattern s' = targetPattern s →
  paintedPattern s' = paintedPattern s →
  currentStroke s' = currentStroke s →
  startingPoint s' = startingPoint s →
  Forall timer_ok (timers s') →
  Inv s → Inv s'.
Proof.
  intros Et Eg Es Ep Htm (Hshape & _ & Hcons & Hpath).
  unfold Inv, shape_ok, consistent, is_path in *.
  rewrite Et, Eg, Es, Ep. done.
Qed.

Lemma click_consistent s x y b s' :
  consistent s → click_spec s x y b s' → consistent s'.
Proof.
  intros (Hcells & Hnn & Hiff) Hc.
  destruct Hc as [Hrej | g' Hin Htgt Hpos Hok Hg' | g' Hin Htgt Hle Hvalid Hok Hg'].
  - done.
  - split; [|split]; simpl.
    + intros p Hp. apply Hcells.
      apply elem_of_take in Hp as (i & Hi & _).
      by eapply list_elem_of_lookup_2.
    + intros x' y' Hin'. rewrite Hg' by done. unfold clear_order.
      case_match; [lia|by apply Hnn].
    + intros x' y' i Hin'. rewrite Hg' by done.
      rewrite lookup_take_Some, <- (Hiff x' y' i Hin').
      unfold clear_order. case_match eqn:E.
      * apply Z.ltb_lt in E. lia.
      * apply Z.ltb_ge in E. lia.
  - split; [|split]; simpl.
    + intros p Hp. apply elem_of_app in Hp as [Hp|Hp]; [by apply Hcells|].
      apply list_elem_of_singleton in Hp as ->. done.
    + intros x' y' Hin'. rewrite Hg' by done.
      case_decide; [lia|by apply Hnn].
    + intros x' y' i Hin'. rewrite Hg' by done.
      rewrite lookup_snoc_Some, length_app. simpl.
      case_decide as Hd.
      * destruct Hd as [-> ->]. split.
        -- intros H. right. split; [lia|done].
        -- intros [[_ H]|[-> _]]; [|lia].
           apply Hiff in H; [|done]. lia.
      * rewrite (Hiff x' y' i Hin'). split.
        -- intros H. left. split; [by eapply lookup_lt_Some|done].
        -- intros [[_ H]|[_ H]]; [done|].
           inversion H; subst. exfalso. by apply Hd.
Qed.

Lemma click_is_path s x y b s' :
  is_path s → click_spec s x y b s' → is_path s'.
Proof.
  intros (Hadj & Hhead) Hc.
  destruct Hc as [Hrej | g' Hin Htgt Hpos Hok Hg' | g' Hin Htgt Hle Hvalid Hok Hg'].
  - done.
  - split; simpl.
    + intros i p q Hp Hq.
      apply lookup_take_Some in Hp as [Hp _].
      apply lookup_take_Some in Hq as [Hq _]. by eapply Hadj.
    + intros p Hp. apply Hhead. rewrite head_lookup in *.
      by apply lookup_take_Some in Hp as [Hp _].
  - unfold isValidMove in Hvalid. split; simpl.
    + intros i p q Hp Hq.
      apply lookup_snoc_Some in Hq as [[Hlt Hq]|[Hi Hq]].
      * rewrite lookup_app_l in Hp by lia. by eapply Hadj.
      * rewrite lookup_app_l in Hp by lia. subst q.
        destruct (currentStroke s) as [|p0 l] eqn:Hst; [simpl in Hi; lia|].
        rewrite last_lookup in Hvalid. simpl in Hvalid, Hi.
        assert (i = length l) as -> by lia. by rewrite Hp in Hvalid.
    + intros p Hp. destruct (currentStroke s) as [|p0 l] eqn:Hst.
      * simpl in Hp. inversion Hp; subst.
        destruct (startingPoint s) as [[sx sy]|]; [|done].
        apply andb_true_iff in Hvalid as [Hx Hy]. simpl in Hx, Hy.
        apply Z.eqb_eq in Hx, Hy. by subst.
      * by apply Hhead.
Qed.

Lemma click_Inv s x y b s' : Inv s → click_spec s x y b s' → Inv s'.
Proof.
  intros (Hshape & Htm & Hcons & Hpath) Hc.
  split; [|split; [|split]].
  - destruct Hshape as [Ht Hg]. destruct Hc; by split.
  - destruct Hshape as [Ht Hg]. destruct Hc; simpl; [done..|].
    apply Forall_app. split; [done|]. by apply Forall_singleton.
  - by eapply click_consistent.
  - by eapply click_is_path.
Qed.

Lemma setIsDrawing_Inv s b : Inv s → Inv (setIsDrawing s b).
Proof. intros H. eapply Inv_same_session; [..|exact H]; try done. apply H. Qed.

(** Every event handler returns on a state that satisfies the invariant,
    and the invariant holds again afterwards. *)
Lemma step_Inv s e : Inv s → ∃ s', step s e = Some s' ∧ Inv s'.
Proof.
  intros HI. destruct e as [x y|x y| | |i]; simpl.
  - unfold handlePointerDown. destruct (isCompleted s); [by eauto|].
    pose proof (setIsDrawing_Inv s true HI) as HI'.
    destruct (handleCellClick_spec _ x y (proj1 HI')) as (b & s' & Hclick & Hspec).
    rewrite Hclick. simpl. eexists. split; [done|]. by eapply click_Inv.
  - unfold handlePointerMove.
    destruct (negb (isDrawing s) || isCompleted s); [by eauto|].
    destruct (handleCellClick_spec _ x y (proj1 HI)) as (b & s' & Hclick & Hspec).
    rewrite Hclick. simpl. eexists. split; [done|]. by eapply click_Inv.
  - eexists. split; [done|]. by apply setIsDrawing_Inv.
  - eexists. split; [done|]. apply generateLevel_Inv, HI.
  - unfold timerFires. destruct (timers s !! i) as [[target newPattern|]|] eqn:Hi.
    + destruct HI as (Hshape & Htm & Hrest).
      pose proof (Forall_lookup_1 _ _ _ _ Htm Hi) as [Ht Hp].
      destruct (checkCompletion_ok _ _ Ht Hp) as (b & Hb & _).
      unfold completionCheckFires. rewrite Hb. simpl.
      assert (Forall timer_ok (delete i (timers s))) as Hdel.
      { by apply Forall_delete. }
      destruct b; (eexists; split; [done|]).
      * eapply (Inv_same_session s); try done.
        simpl. apply Forall_app. split; [done|]. by apply Forall_singleton.
      * by eapply (Inv_same_session s).
    + eexists. split; [done|]. apply generateLevel_Inv. simpl.
      apply Forall_delete, HI.
    + by eauto.
Qed.

Lemma run_Inv events : ∀ s, Inv s → ∃ s', run s events = Some s' ∧ Inv s'.
Proof.
  induction events as [|e rest IH]; intros s HI; [by eauto|].
  destruct (step_Inv s e HI) as (s1 & Hstep & HI1).
  destruct (IH s1 HI1) as (s' & Hrun & HI').
  exists s'. split; [|done]. simpl. by rewrite Hstep.
Qed.
End invariant.

(** ** Sessions reached from a fresh one *)

Section reached.
Implicit Types (s : State) (x y : Z).

Lemma reached_Inv s0 events s :
  fresh_session s0 → run s0 events = Some s → Inv s.
Proof.
  intros Hf Hrun.
  destruct (run_Inv events s0 (fresh_Inv s0 Hf)) as (s' & Hrun' & HI).
  congruence.
Qed.

Lemma mounted_fresh : fresh_session mounted.
Proof. split; [exact (levelShape_ok 1)|done]. Qed.

Lemma areAdjacent_spec p q : areAdjacent p q = true ↔ grid_adjacent p q.
Proof.
  unfold areAdjacent, grid_adjacent.
  rewrite orb_true_iff, !andb_true_iff, !Z.eqb_eq. lia.
Qed.

Lemma consistent_dense s : consistent s → dense_orders s.
Proof.
  intros (Hcells & Hnn & Hiff). split; [|split].
  - intros v. split.
    + intros (x & y & Hin & Hv & Hpos).
      destruct (Hiff x y (Z.to_nat (v - 1)) Hin) as [Hto _].
      apply lookup_lt_Some in Hto; lia.
    + intros Hv.
      destruct (lookup_lt_is_Some_2 (currentStroke s) (Z.to_nat (v - 1)))
        as [[px py] Hp]; [lia|].
      destruct (Hcells _ (list_elem_of_lookup_2 _ _ _ Hp)) as [Hin _].
      exists px, py. split; [done|]. split; [|lia].
      simpl in Hin. apply (Hiff px py _ Hin) in Hp. lia.
  - intros x y x' y' Hin Hin' Hpos Heq.
    pose proof (proj1 (Hiff x y (Z.to_nat (orderAt (paintedPattern s) x y - 1)) Hin))
      as H1.
    pose proof (proj1 (Hiff x' y' (Z.to_nat (orderAt (paintedPattern s) x y - 1)) Hin'))
      as H2.
    rewrite H1 in H2 by lia.
    assert (Some (mkPosition x y) = Some (mkPosition x' y')) as E by (apply H2; lia).
    by inversion E.
  - intros i [px py] Hp.
    destruct (Hcells _ (list_elem_of_lookup_2 _ _ _ Hp)) as [Hin _].
    split; [done|]. simpl in *. apply (Hiff px py _ Hin) in Hp. lia.
Qed.

Lemma is_path_stroke s : is_path s → stroke_is_path s.
Proof.
  intros [Hadj Hhead]. split; [|done].
  intros i p q Hp Hq. apply areAdjacent_spec. by eapply Hadj.
Qed.

(** With an empty stroke no cell is painted. *)
Lemma empty_stroke_unpainted s x y :
  consistent s → currentStroke s = [] → in_grid x y →
  orderAt (paintedPattern s) x y = 0.
Proof.
  intros (_ & Hnn & Hiff) Hst Hin.
  specialize (Hnn x y Hin).
  destruct (decide (orderAt (paintedPattern s) x y = 0)) as [|Hne]; [done|].
  destruct (Hiff x y (Z.to_nat (orderAt (paintedPattern s) x y - 1)) Hin) as [Hto _].
  rewrite Hst in Hto. discriminate Hto. lia.
Qed.

(** A painted cell lies on the stroke, at the index its order gives. *)
Lemma painted_on_stroke s x y :
  consistent s → in_grid x y → 0 < orderAt (paintedPattern s) x y →
  currentStroke s !! Z.to_nat (orderAt (paintedPattern s) x y - 1)
    = Some (mkPosition x y) ∧
  targetAt (targetPattern s) x y = true.
Proof.
  intros (Hcells & Hnn & Hiff) Hin Hpos.
  assert (currentStroke s !! Z.to_nat (orderAt (paintedPattern s) x y - 1)
          = Some (mkPosition x y)) as Hl by (apply Hiff; [done|lia]).
  split; [done|].
  by destruct (Hcells _ (list_elem_of_lookup_2 _ _ _ Hl)) as [_ Ht].
Qed.

Lemma isValidMove_first s x y :
  currentStroke s = [] →
  isValidMove s x y = true ↔ startingPoint s = Some (mkPosition x y).
Proof.
  intros Hst. unfold isValidMove. rewrite Hst.
  destruct (startingPoint s) as [[sx sy]|]; simpl; [|done].
  rewrite andb_true_iff, !Z.eqb_eq. split.
  - by intros [-> ->].
  - intros E. by inversion E.
Qed.

Lemma click_spec_keeps s x y b s' :
  click_spec s x y b s' →
  targetPattern s' = targetPattern s ∧ startingPoint s' = startingPoint s ∧
  level s' = level s ∧ isCompleted s' = isCompleted s ∧
  isDrawing s' = isDrawing s.
Proof. by intros []. Qed.

(** A touch that is not an extension cannot complete the coverage. *)
Lemma click_spec_coverage s x y b s' :
  click_spec s x y b s' → b ≠ Extended → all_painted s' → all_painted s.
Proof.
  intros Hc Hb Hall. destruct Hc as [|g' Hin Htgt Hpos Hok Hg'|]; [done| |done].
  intros x' y' Hin' Ht'. specialize (Hall x' y' Hin' Ht'). simpl in Hall.
  rewrite Hg' in Hall by done. unfold clear_order in Hall.
  by case_match; [lia|].
Qed.
End reached.

(** ** The stroke engine: revert, completion, first move, rejection *)

Section engine.
Implicit Types (s : State) (x y k : Z).

Lemma covered_all_painted s :
  consistent s →
  covered (targetPattern s) (paintedPattern s) ↔ all_painted s.
Proof.
  intros (_ & Hnn & _). unfold covered, all_painted. split.
  - intros H x y Hin Ht. specialize (H x y Hin Ht). specialize (Hnn x y Hin). lia.
  - intros H x y Hin Ht. specialize (H x y Hin Ht). lia.
Qed.

(** C1.  In every session reached from a fresh one, touching a cell of paint
    order [k >= 1] takes the revert branch: [k] is at most the length of the
    stroke, the new stroke is the prefix of length [k] of the old one, every
    order above [k] becomes 0 and every other order is kept; the touched cell
    keeps order [k] and is the last cell of the new stroke. *)
Theorem revert_truncates_stroke s0 events s x y k :
  fresh_session s0 → run s0 events = Some s →
  in_grid x y → orderAt (paintedPattern s) x y = k → 1 ≤ k →
  k ≤ Z.of_nat (length (currentStroke s)) ∧
  touchResult s x y = Some reverted ∧
  ∃ s', handleCellClick s x y = Some (Reverted, s') ∧
        currentStroke s' = take (Z.to_nat k) (currentStroke s) ∧
        Z.of_nat (length (currentStroke s')) = k ∧
        (∀ x' y', in_grid x' y' →
           orderAt (paintedPattern s') x' y' =
           if decide (k < orderAt (paintedPattern s) x' y') then 0
           else orderAt (paintedPattern s) x' y') ∧
        orderAt (paintedPattern s') x y = k ∧
        last (currentStroke s') = Some (mkPosition x y) ∧
        targetPattern s' = targetPattern s ∧
        startingPoint s' = startingPoint s ∧
        timers s' = timers s.
Proof.
  intros Hf Hrun Hin Hk Hpos.
  destruct (reached_Inv _ _ _ Hf Hrun) as (Hshape & _ & Hcons & _).
  destruct (painted_on_stroke s x y Hcons Hin) as [Hl Ht]; [lia|].
  rewrite Hk in Hl. pose proof (lookup_lt_Some _ _ _ Hl) as Hlen.
  split; [lia|].
  destruct (handleCellClick_spec s x y Hshape) as (b & s' & Hclick & Hspec).
  destruct Hspec as [Hrej | g' _ _ _ Hok Hg' | g' _ _ Hle _ _ _].
  - exfalso. destruct Hrej as [?|[?|[? _]]]; [done|congruence|lia].
  - rewrite Hk in *. split; [unfold touchResult; by rewrite Hclick|].
    eexists. split; [done|]. simpl.
    split; [done|]. split; [rewrite length_take_le; lia|].
    split; [|split; [|split; [|done]]].
    + intros x' y' Hin'. rewrite Hg' by done. unfold clear_order.
      case_decide as Hd; case_match eqn:E; try done.
      * apply Z.ltb_ge in E. lia.
      * apply Z.ltb_lt in E. lia.
    + rewrite Hg' by done. unfold clear_order. rewrite Hk.
      by rewrite Z.ltb_irrefl.
    + rewrite last_lookup, length_take_le by lia.
      rewrite lookup_take_lt by lia. rewrite <- Hl. f_equal. lia.
  - lia.
Qed.

(** C2.  In every session reached from a fresh one: the completion check of
    any well-shaped grid succeeds exactly when every target cell has a nonzero
    order, no other cell entering the condition; a touch starts the check
    timer, on the grid it has just built, exactly when it extends the stroke;
    and its result is [completed] exactly when it extends the stroke and
    leaves every target cell painted, that is, exactly when it turns a
    session that is not fully painted into one that is. *)
Theorem completion_iff_coverage s0 events s x y :
  fresh_session s0 → run s0 events = Some s →
  (∀ g, painted_ok g →
        ∃ d, checkCompletion (targetPattern s) g = Some d ∧
             (d = true ↔ covered (targetPattern s) g)) ∧
  ∃ b s' r,
    handleCellClick s x y = Some (b, s') ∧
    touchResult s x y = Some r ∧
    (timers s' = if decide (b = Extended)
                 then timers s ++ [CompletionCheck (targetPattern s) (paintedPattern s')]
                 else timers s) ∧
    (r = completed ↔ b = Extended ∧ all_painted s') ∧
    (r = completed ↔ ¬ all_painted s ∧ all_painted s').
Proof.
  intros Hf Hrun.
  pose proof (reached_Inv _ _ _ Hf Hrun) as HI.
  pose proof HI as ((Ht & Hg) & _ & Hcons & _).
  split; [intros g Hok; by apply checkCompletion_ok|].
  destruct (handleCellClick_spec s x y (conj Ht Hg)) as (b & s' & Hclick & Hspec).
  pose proof (click_Inv _ _ _ _ _ HI Hspec) as (_ & _ & Hcons' & _).
  pose proof (click_spec_coverage _ _ _ _ _ Hspec) as Hcov.
  exists b, s'. unfold touchResult. rewrite Hclick. simpl.
  destruct Hspec as [Hrej | g' Hin Htgt Hpos Hok Hg' | g' Hin Htgt Hle Hvalid Hok Hg'].
  - exists rejected. do 3 (split; [done|]). split; [by split; [|intros [? _]]|].
    split; [done|]. by intros [? ?].
  - exists reverted. do 3 (split; [done|]). split; [by split; [|intros [? _]]|].
    split; [done|]. intros [Hn Ha]. exfalso. by apply Hn, Hcov.
  - simpl. destruct (checkCompletion_ok (targetPattern s) g' Ht Hok)
      as (d & Hd & Hiff).
    rewrite Hd. simpl.
    apply covered_all_painted in Hcons'. simpl in Hcons'.
    assert (¬ all_painted s) as Hnot.
    { intros Hall. specialize (Hall x y Hin Htgt). lia. }
    exists (if d then completed else extended). do 3 (split; [done|]).
    rewrite <- Hcons', <- Hiff. destruct d.
    + split; (split; [done|]); by intros _.
    + split; (split; [done|]); by intros [_ ?].
Qed.

(** C3.  In every session reached from a fresh one whose stroke is empty, a
    touch of a cell other than the start point is rejected and leaves the
    state as it is, and a touch that leaves a non-empty stroke is a touch of
    the start point, the stroke being that one cell. *)
Theorem first_touch_must_be_start s0 events s x y :
  fresh_session s0 → run s0 events = Some s →
  currentStroke s = [] →
  ∃ b s',
    handleCellClick s x y = Some (b, s') ∧
    (startingPoint s ≠ Some (mkPosition x y) →
       b = Rejected ∧ s' = s ∧ touchResult s x y = Some rejected) ∧
    (currentStroke s' ≠ [] →
       startingPoint s = Some (mkPosition x y) ∧
       currentStroke s' = [mkPosition x y]).
Proof.
  intros Hf Hrun Hst.
  destruct (reached_Inv _ _ _ Hf Hrun) as (Hshape & _ & Hcons & _).
  destruct (handleCellClick_spec s x y Hshape) as (b & s' & Hclick & Hspec).
  exists b, s'. split; [done|]. unfold touchResult. rewrite Hclick.
  destruct Hspec as [Hrej | g' Hin Htgt Hpos Hok Hg' | g' Hin Htgt Hle Hvalid Hok Hg'].
  - split; [done|]. intros Hne. by rewrite Hst in Hne.
  - rewrite (empty_stroke_unpainted s x y Hcons Hst Hin) in Hpos. lia.
  - apply (isValidMove_first s x y Hst) in Hvalid. split; [done|].
    intros _. split; [done|]. simpl. by rewrite Hst.
Qed.

(** C6.  In every session reached from a fresh one, a touch outside the
    grid, on a cell that is not a target, on an unpainted cell that is not
    adjacent to the last cell of the stroke, or on a cell other than the
    start point while the stroke is empty, is rejected and leaves the whole
    state, stroke and paint orders included, as it is. *)
Theorem rejected_touch_keeps_state s0 events s x y :
  fresh_session s0 → run s0 events = Some s →
  rejected_touch s x y →
  handleCellClick s x y = Some (Rejected, s) ∧
  touchResult s x y = Some rejected.
Proof.
  intros Hf Hrun Hrej.
  destruct (reached_Inv _ _ _ Hf Hrun) as (Hshape & _ & Hcons & _).
  destruct (handleCellClick_spec s x y Hshape) as (b & s' & Hclick & Hspec).
  unfold touchResult. rewrite Hclick.
  destruct Hspec as [_ | g' Hin Htgt Hpos Hok Hg' | g' Hin Htgt Hle Hvalid Hok Hg'];
    [done|exfalso..].
  - destruct Hrej as [?|[?|[[Hz _]|[Hst _]]]]; [done|congruence|lia|].
    rewrite (empty_stroke_unpainted s x y Hcons Hst Hin) in Hpos. lia.
  - destruct Hrej as [?|[?|[[_ (l & Hl & Hadj)]|[Hst Hne]]]]; [done|congruence| |].
    + unfold isValidMove in Hvalid. rewrite Hl in Hvalid.
      destruct (currentStroke s); [done|congruence].
    + by apply (isValidMove_first s x y Hst) in Hvalid.
Qed.

(** C9.  [handleCellClick] returns, without a [TypeError], for all integer
    coordinates on every state whose grids have [GRID_SIZE] rows of
    [GRID_SIZE] cells; and for coordinates outside the grid it returns on any
    state at all, even one whose grids have no rows, through the rejecting
    branch and with the state untouched: the bounds test comes before the
    first array access. *)
Theorem touch_never_throws s x y :
  shape_ok s ∨ ¬ in_grid x y →
  ∃ b s', handleCellClick s x y = Some (b, s') ∧
          (¬ in_grid x y → b = Rejected ∧ s' = s).
Proof.
  intros [Hshape|Hout].
  - destruct (handleCellClick_spec s x y Hshape) as (b & s' & Hclick & Hspec).
    exists b, s'. split; [done|]. intros Hout.
    rewrite (handleCellClick_out s x y Hout) in Hclick. by inversion Hclick.
  - exists Rejected, s. split; [by apply handleCellClick_out|done].
Qed.
End engine.

(** ** Invariants of whole sessions *)

Section sessions.
Implicit Types (s : State) (x y : Z).

(** C4.  From a fresh session on any well-shaped pattern, every sequence of
    events runs to a state, and in that state the positive paint orders are
    exactly [1 .. k] for [k] the length of the stroke, no two cells share a
    positive order, and the cell at index [i] of the stroke is the cell of
    order [i + 1]. *)
Theorem paint_orders_dense s0 events :
  fresh_session s0 →
  ∃ s, run s0 events = Some s ∧ dense_orders s.
Proof.
  intros Hf.
  destruct (run_Inv events s0 (fresh_Inv s0 Hf)) as (s & Hrun & HI).
  exists s. split; [done|]. apply consistent_dense, HI.
Qed.

(** C5.  From a fresh session on any well-shaped pattern, every sequence of
    events runs to a state whose stroke is a path: two consecutive cells
    differ by exactly 1 in exactly one coordinate, and the first cell of a
    non-empty stroke is the start point. *)
Theorem stroke_stays_path s0 events :
  fresh_session s0 →
  ∃ s, run s0 events = Some s ∧ stroke_is_path s.
Proof.
  intros Hf.
  destruct (run_Inv events s0 (fresh_Inv s0 Hf)) as (s & Hrun & HI).
  exists s. split; [done|]. apply is_path_stroke, HI.
Qed.

Lemma generateLevel_level_session s :
  level_session (generateLevel s (level s)).
Proof.
  unfold level_session, generateLevel.
  by destruct (levelShape (level s)) as [pattern startPoint] eqn:E; simpl; rewrite E.
Qed.

Lemma level_session_same s s' :
  targetPattern s' = targetPattern s → startingPoint s' = startingPoint s →
  level s' = level s → level_session s → level_session s'.
Proof. unfold level_session. by intros -> -> ->. Qed.

Lemma click_level_session s x y b s' :
  shape_ok s → level_session s → handleCellClick s x y = Some (b, s') →
  level_session s'.
Proof.
  intros Hshape HL Hclick.
  destruct (handleCellClick_spec s x y Hshape) as (b' & s'' & Hclick' & Hspec).
  rewrite Hclick in Hclick'. inversion Hclick'; subst b' s''.
  destruct (click_spec_keeps _ _ _ _ _ Hspec) as (Et & Ep & El & _).
  by eapply level_session_same.
Qed.

Lemma step_level_session s e s' :
  Inv s → level_session s → step s e = Some s' → level_session s'.
Proof.
  intros HI HL. destruct e as [x y|x y| | |i]; simpl.
  - unfold handlePointerDown. destruct (isCompleted s); [by intros [= <-]|].
    destruct (handleCellClick _ x y) as [[b s1]|] eqn:Hclick; [|done].
    intros [= <-]. eapply click_level_session; [| |exact Hclick]; [apply HI|done].
  - unfold handlePointerMove.
    destruct (negb (isDrawing s) || isCompleted s); [by intros [= <-]|].
    destruct (handleCellClick _ x y) as [[b s1]|] eqn:Hclick; [|done].
    intros [= <-]. eapply click_level_session; [| |exact Hclick]; [apply HI|done].
  - by intros [= <-].
  - intros [= <-]. apply generateLevel_level_session.
  - unfold timerFires. destruct (timers s !! i) as [[target newPattern|]|].
    + unfold completionCheckFires.
      destruct (checkCompletion target newPattern) as [[|]|]; [| |done];
        by intros [= <-].
    + intros [= <-]. unfold levelAdvanceFires.
      apply (generateLevel_level_session
               (mkState (targetPattern s) (paintedPattern s) (currentStroke s)
                        (startingPoint s) (isDrawing s) (level s + 1)
                        (isCompleted s) (delete i (timers s)))).
    + by intros [= <-].
Qed.

Lemma run_level_session events :
  ∀ s s', Inv s → level_session s → run s events = Some s' → level_session s'.
Proof.
  induction events as [|e rest IH]; intros s s' HI HL; simpl.
  - by intros [= <-].
  - destruct (step_Inv s e HI) as (s1 & Hstep & HI1). rewrite Hstep. simpl.
    intros Hrun. apply (IH s1 s'); [done| |done].
    by apply (step_level_session s e s1).
Qed.

(** C8.  In every state the mounted component reaches, [resetLevel] leaves an
    empty stroke, a painted grid whose orders are all 0 and
    [isCompleted = false], while the target pattern and the start point are
    the ones the state had before: [generateLevel] is a function of the level
    number, and the reset passes the current one. *)
Theorem reset_clears_session events s :
  run mounted events = Some s →
  currentStroke (resetLevel s) = [] ∧
  paintedPattern (resetLevel s) = blank_painted ∧
  (∀ x y, orderAt (paintedPattern (resetLevel s)) x y = 0) ∧
  isCompleted (resetLevel s) = false ∧
  targetPattern (resetLevel s) = targetPattern s ∧
  startingPoint (resetLevel s) = startingPoint s ∧
  level (resetLevel s) = level s.
Proof.
  intros Hrun.
  assert (level_session s) as [Et Ep].
  { eapply (run_level_session events mounted); [| |done].
    - apply fresh_Inv, mounted_fresh.
    - apply (generateLevel_level_session initialState). }
  unfold resetLevel, generateLevel. rewrite Et, Ep.
  destruct (levelShape (level s)) as [pattern startPoint]. simpl.
  do 2 (split; [done|]). split; [apply orderAt_blank|done].
Qed.

(** C10.  For every level number from 1 on, the generated pattern has a
    target cell, and the generated start point is a cell of the grid and a
    target cell of that pattern. *)
Theorem generated_start_is_target s levelNum :
  1 ≤ levelNum →
  (∃ x y, in_grid x y ∧
          targetAt (targetPattern (generateLevel s levelNum)) x y = true) ∧
  ∃ p, startingPoint (generateLevel s levelNum) = Some p ∧
       in_grid (pos_x p) (pos_y p) ∧
       targetAt (targetPattern (generateLevel s levelNum)) (pos_x p) (pos_y p) = true.
Proof.
  intros _.
  assert (∃ p, startingPoint (generateLevel s levelNum) = Some p ∧
               in_grid (pos_x p) (pos_y p) ∧
               targetAt (targetPattern (generateLevel s levelNum))
                        (pos_x p) (pos_y p) = true) as (p & Hp & Hin & Ht).
  { unfold generateLevel, levelShape.
    repeat case_match; simplify_eq; eexists; (split; [reflexivity|]);
      (split; [by vm_compute|by vm_compute]). }
  split; [by exists (pos_x p), (pos_y p)|by exists p].
Qed.

(** Firing the completion check sets [isCompleted] exactly when the check on
    the captured grids succeeds; otherwise the flag is left as it is. *)
Lemma completionCheckFires_flag s target g pending s' :
  completionCheckFires s target g pending = Some s' →
  isCompleted s' =
  match checkCompletion target g with
  | Some true => true
  | _ => isCompleted s
  end.
Proof.
  unfold completionCheckFires.
  destruct (checkCompletion target g) as [[|]|]; simpl; [| |done];
    by intros [= <-].
Qed.

(** Once [isCompleted] is set, both pointer handlers return at once. *)
Lemma completed_ignores_pointer s x y :
  isCompleted s = true →
  handlePointerDown s x y = Some s ∧ handlePointerMove s x y = Some s.
Proof.
  intros Hc. unfold handlePointerDown, handlePointerMove. rewrite Hc.
  by rewrite orb_true_r.
Qed.

(** C7.  On level 1, the touch of [(5, 5)] that completes the L is followed,
    before its completion check has fired, by a touch of the painted cell
    [(4, 5)]: that touch is handled, it cuts the stroke back to eight cells
    and unpaints [(5, 5)]; the check then fires on the grid it captured and
    sets [isCompleted] on a session whose last target cell is unpainted. *)
Theorem late_touch_mutates_completing_session :
  ∃ s8 s9 s9' s10,
    run mounted eight_cells = Some s8 ∧
    touchResult s8 5 5 = Some completed ∧
    step s8 (PointerMove 5 5) = Some s9 ∧
    length (currentStroke s9) = 9%nat ∧
    checkCompletion (targetPattern s9) (paintedPattern s9) = Some true ∧
    isCompleted s9 = false ∧
    step s9 (PointerMove 4 5) = Some s9' ∧
    length (currentStroke s9') = 8%nat ∧
    targetAt (targetPattern s9') 5 5 = true ∧
    orderAt (paintedPattern s9') 5 5 = 0 ∧
    step s9' (TimerFires 0) = Some s10 ∧
    run mounted slip_back = Some s10 ∧
    isCompleted s10 = true ∧
    currentStroke s10 = currentStroke s9' ∧
    paintedPattern s10 = paintedPattern s9' ∧
    checkCompletion (targetPattern s10) (paintedPattern s10) = Some false.
Proof.
  eexists _, _, _, _.
  split; [by vm_compute|].
  repeat (split; [by vm_compute|]). by vm_compute.
Qed.
End sessions.

(** ** The theorems at concrete sessions of level 1 *)

Lemma revert_truncates_stroke_witness :
  fresh_session mounted ∧
  run mounted three_cells_events = Some three_cells ∧
  touchResult three_cells 1 2 = Some reverted.
Proof.
  assert (fresh_session mounted) as Hf.
  { repeat split; vm_compute; repeat constructor. }
  assert (run mounted three_cells_events = Some three_cells) as Hrun
    by reflexivity.
  split; [exact Hf|]. split; [exact Hrun|].
  refine (proj1 (proj2
    (revert_truncates_stroke mounted three_cells_events three_cells 1 2 2
       Hf Hrun _ _ _))).
  - unfold in_grid, GRID_SIZE. lia.
  - reflexivity.
  - lia.
Defined.

Lemma completion_iff_coverage_witness :
  fresh_session mounted ∧
  run mounted three_cells_events = Some three_cells ∧
  ∃ d, checkCompletion (targetPattern three_cells) blank_painted = Some d ∧
       (d = true ↔ covered (targetPattern three_cells) blank_painted).
Proof.
  assert (fresh_session mounted) as Hf.
  { repeat split; vm_compute; repeat constructor. }
  assert (run mounted three_cells_events = Some three_cells) as Hrun
    by reflexivity.
  split; [exact Hf|]. split; [exact Hrun|].
  apply (proj1 (completion_iff_coverage mounted three_cells_events three_cells
                  1 4 Hf Hrun)).
  split; [reflexivity|]. vm_compute. repeat constructor; by eexists.
Defined.

Lemma first_touch_must_be_start_witness :
  fresh_session mounted ∧
  ∃ b s',
    handleCellClick mounted 1 2 = Some (b, s') ∧
    (startingPoint mounted ≠ Some (mkPosition 1 2) →
       b = Rejected ∧ s' = mounted ∧ touchResult mounted 1 2 = Some rejected) ∧
    (currentStroke s' ≠ [] →
       startingPoint mounted = Some (mkPosition 1 2) ∧
       currentStroke s' = [mkPosition 1 2]).
Proof.
  assert (fresh_session mounted) as Hf.
  { repeat split; vm_compute; repeat constructor. }
  split; [exact Hf|].
  apply (first_touch_must_be_start mounted [] mounted 1 2 Hf); reflexivity.
Defined.

Lemma paint_orders_dense_witness :
  fresh_session mounted ∧
  ∃ s, run mounted three_cells_events = Some s ∧ dense_orders s.
Proof.
  assert (fresh_session mounted) as Hf.
  { repeat split; vm_compute; repeat constructor. }
  split; [exact Hf|]. exact (paint_orders_dense mounted three_cells_events Hf).
Defined.

Lemma stroke_stays_path_witness :
  fresh_session mounted ∧
  ∃ s, run mounted three_cells_events = Some s ∧ stroke_is_path s.
Proof.
  assert (fresh_session mounted) as Hf.
  { repeat split; vm_compute; repeat constructor. }
  split; [exact Hf|]. exact (stroke_stays_path mounted three_cells_events Hf).
Defined.

Lemma rejected_touch_keeps_state_witness :
  rejected_touch three_cells 1 5 ∧
  handleCellClick three_cells 1 5 = Some (Rejected, three_cells) ∧
  touchResult three_cells 1 5 = Some rejected.
Proof.
  assert (fresh_session mounted) as Hf.
  { repeat split; vm_compute; repeat constructor. }
  assert (run mounted three_cells_events = Some three_cells) as Hrun
    by reflexivity.
  assert (rejected_touch three_cells 1 5) as Hrej.
  { right. right. left. split; [reflexivity|].
    exists (mkPosition 1 3). split; reflexivity. }
  split; [exact Hrej|].
  exact (rejected_touch_keeps_state mounted three_cells_events three_cells 1 5
           Hf Hrun Hrej).
Defined.

Lemma reset_clears_session_witness :
  run mounted three_cells_events = Some three_cells ∧
  currentStroke (resetLevel three_cells) = [] ∧
  targetPattern (resetLevel three_cells) = targetPattern three_cells.
Proof.
  assert (run mounted three_cells_events = Some three_cells) as Hrun
    by reflexivity.
  split; [exact Hrun|].
  pose proof (reset_clears_session three_cells_events three_cells Hrun)
    as (Hst & _ & _ & _ & Ht & _).
  split; [exact Hst|exact Ht].
Defined.

Lemma touch_never_throws_witness :
  ¬ in_grid (-1) 9 ∧
  ∃ b s', handleCellClick initialState (-1) 9 = Some (b, s') ∧
          (¬ in_grid (-1) 9 → b = Rejected ∧ s' = initialState).
Proof.
  assert (¬ in_grid (-1) 9) as Hout.
  { unfold in_grid, GRID_SIZE. lia. }
  split; [exact Hout|].
  exact (touch_never_throws initialState (-1) 9 (or_intror Hout)).
Defined.

Lemma generated_start_is_target_witness :
  1 ≤ 5 ∧
  ∃ p, startingPoint (generateLevel initialState 5) = Some p ∧
       in_grid (pos_x p) (pos_y p) ∧
       targetAt (targetPattern (generateLevel initialState 5))
                (pos_x p) (pos_y p) = true.
Proof.
  assert (1 ≤ 5) as Hle by lia.
  split; [exact Hle|].
  exact (proj2 (generated_start_is_target initialState 5 Hle)).
Defined.

(** * One-stroke solutions and the levels *)

Section solutions.
Implicit Types (s : State) (x y : Z) (l p q : Position).

Lemma in_gridb_spec x y : in_gridb x y = true ↔ in_grid x y.
Proof.
  unfold in_gridb, in_grid.
  rewrite !andb_true_iff, !Z.leb_le, !Z.ltb_lt. tauto.
Qed.

Lemma grid_positions_spec p :
  p ∈ grid_positions ↔ in_grid (pos_x p) (pos_y p).
Proof.
  unfold grid_positions. rewrite list_elem_of_fmap. split.
  - intros ([cy cx] & -> & Hin). simpl.
    apply in_grid_of_nat. by apply grid_cells_spec.
  - intros Hin. destruct (in_grid_nat _ _ Hin) as (Hy & Hx & Ex & Ey).
    exists (Z.to_nat (pos_y p), Z.to_nat (pos_x p)). split.
    + simpl. rewrite Ex, Ey. by destruct p.
    + by apply grid_cells_spec.
Qed.

Lemma grid_positions_NoDup : NoDup grid_positions.
Proof. apply (bool_decide_unpack _). by vm_compute. Qed.

Lemma targets_of_spec target p :
  p ∈ targets_of target ↔
  in_grid (pos_x p) (pos_y p) ∧ targetAt target (pos_x p) (pos_y p) = true.
Proof.
  unfold targets_of. rewrite list_elem_of_filter, grid_positions_spec. tauto.
Qed.

Lemma targets_of_NoDup target : NoDup (targets_of target).
Proof. apply NoDup_filter, grid_positions_NoDup. Qed.

Lemma adjacent_neighbour l q : areAdjacent l q = true → q ∈ neighbours l.
Proof.
  intros H. apply areAdjacent_spec in H. destruct l as [lx ly], q as [qx qy].
  unfold grid_adjacent, neighbours in *. simpl in *.
  rewrite !elem_of_cons.
  destruct H as [[H1 H2]|[H1 H2]].
  - destruct (decide (qx = lx + 1)) as [->|Hne].
    + left. by subst.
    + right. left. f_equal; lia.
  - destruct (decide (qy = ly + 1)) as [->|Hne].
    + right. right. left. by subst.
    + right. right. right. left. f_equal; lia.
Qed.

Lemma extendable_S target n l visited :
  extendable target (S n) l visited =
  existsb (λ q, if in_gridb (pos_x q) (pos_y q)
                   && targetAt target (pos_x q) (pos_y q)
                   && negb (bool_decide (q ∈ visited))
                then extendable target n q (q :: visited)
                else false)
          (neighbours l).
Proof. reflexivity. Qed.

(** The search finds every continuation there is. *)
Lemma extendable_complete target suffix :
  ∀ l visited,
    chain l suffix →
    (∀ q, q ∈ suffix →
          in_grid (pos_x q) (pos_y q) ∧
          targetAt target (pos_x q) (pos_y q) = true) →
    NoDup suffix →
    (∀ q, q ∈ suffix → q ∉ visited) →
    extendable target (length suffix) l visited = true.
Proof.
  induction suffix as [|q rest IH]; intros l visited Hch Htgt Hnd Hfresh; [done|].
  destruct Hch as [Hadj Hch]. apply NoDup_cons in Hnd as [Hq Hnd].
  change (length (q :: rest)) with (S (length rest)).
  rewrite extendable_S. apply existsb_exists. exists q. split.
  - apply list_elem_of_In. by apply adjacent_neighbour.
  - destruct (Htgt q) as [Hin Ht]; [apply list_elem_of_here|].
    rewrite (proj2 (in_gridb_spec _ _) Hin), Ht. simpl.
    rewrite bool_decide_eq_false_2 by (apply Hfresh, list_elem_of_here). simpl.
    apply IH; [done| |done|].
    + intros q' Hq'. apply Htgt. by apply list_elem_of_further.
    + intros q' Hq' Hin'. apply elem_of_cons in Hin' as [->|Hin']; [done|].
      by apply (Hfresh q'); [apply list_elem_of_further|].
Qed.

Lemma chain_of_lookup l rest :
  (∀ (i : nat) p q, (l :: rest) !! i = Some p → (l :: rest) !! S i = Some q →
                    areAdjacent p q = true) →
  chain l rest.
Proof.
  revert l. induction rest as [|q rest IH]; intros l H; [done|]. split.
  - by apply (H 0%nat).
  - apply IH. intros i p q' Hp Hq'. by apply (H (S i)).
Qed.

Lemma chain_lookup l rest :
  chain l rest →
  ∀ (i : nat) p q, (l :: rest) !! i = Some p → (l :: rest) !! S i = Some q →
                   areAdjacent p q = true.
Proof.
  revert l. induction rest as [|q rest IH]; intros l H i p q' Hp Hq'.
  - by destruct i.
  - destruct H as [Hadj Hch]. destruct i as [|i].
    + simpl in Hp, Hq'. by simplify_eq.
    + by apply (IH q Hch i).
Qed.

Lemma chain_take l rest n : chain l rest → chain l (take n rest).
Proof.
  revert l n. induction rest as [|q rest IH]; intros l [|n] H; try done.
  destruct H as [Hadj Hch]. split; [done|]. by apply IH.
Qed.

Lemma stroke_NoDup s : consistent s → NoDup (currentStroke s).
Proof.
  intros (Hcells & _ & Hiff). apply NoDup_alt. intros i j [px py] Hi Hj.
  destruct (Hcells _ (list_elem_of_lookup_2 _ _ _ Hi)) as [Hin _]. simpl in Hin.
  apply (Hiff px py i Hin) in Hi. apply (Hiff px py j Hin) in Hj. lia.
Qed.

Lemma stroke_in_targets s p :
  consistent s → p ∈ currentStroke s → p ∈ targets_of (targetPattern s).
Proof. intros (Hcells & _) Hp. apply targets_of_spec. by apply Hcells. Qed.

(** A fully painted session has every target cell on its stroke. *)
Lemma all_painted_on_stroke s p :
  consistent s → all_painted s →
  p ∈ targets_of (targetPattern s) → p ∈ currentStroke s.
Proof.
  intros Hcons Hall Hp. apply targets_of_spec in Hp as [Hin Ht].
  destruct (painted_on_stroke s _ _ Hcons Hin (Hall _ _ Hin Ht)) as [Hl _].
  destruct p. by eapply list_elem_of_lookup_2.
Qed.

(** A session is fully painted exactly when its stroke has as many cells as
    the pattern has target cells. *)
Lemma all_painted_length s :
  consistent s →
  all_painted s ↔
  length (currentStroke s) = length (targets_of (targetPattern s)).
Proof.
  intros Hcons.
  assert (currentStroke s ⊆+ targets_of (targetPattern s)) as Hsub.
  { apply NoDup_submseteq; [by apply stroke_NoDup|].
    intros p. by apply stroke_in_targets. }
  split.
  - intros Hall. apply Nat.le_antisymm; [by apply submseteq_length|].
    apply submseteq_length, NoDup_submseteq; [apply targets_of_NoDup|].
    intros p. by apply all_painted_on_stroke.
  - intros Hlen x y Hin Ht.
    assert (mkPosition x y ∈ currentStroke s) as Hon.
    { eapply elem_of_Permutation_proper.
      - apply submseteq_length_Permutation; [exact Hsub|lia].
      - by apply targets_of_spec. }
    destruct Hcons as (_ & Hnn & Hiff).
    apply list_elem_of_lookup_1 in Hon as [i Hi].
    apply (Hiff x y i Hin) in Hi. lia.
Qed.

(** On a pattern without a one-stroke solution from the start point, no
    session with a stroke is ever fully painted. *)
Lemma unsolvable_not_painted s start :
  Inv s → startingPoint s = Some start → currentStroke s ≠ [] →
  solvable (targetPattern s) start = false →
  ¬ all_painted s.
Proof.
  intros (_ & _ & Hcons & Hadj & Hhead) Hstart Hne Hsolv Hall.
  destruct (currentStroke s) as [|p rest] eqn:Hst; [done|].
  assert (p = start) as -> by (specialize (Hhead p eq_refl); congruence).
  apply (all_painted_length s Hcons) in Hall. rewrite Hst in Hall. simpl in Hall.
  pose proof (stroke_NoDup s Hcons) as Hnd. rewrite Hst in Hnd.
  apply NoDup_cons in Hnd as [Hfresh Hnd].
  unfold solvable in Hsolv. rewrite <- Hall in Hsolv. simpl in Hsolv.
  rewrite Nat.sub_0_r in Hsolv.
  rewrite extendable_complete in Hsolv; [done| | |done|].
  - by apply chain_of_lookup.
  - intros q Hq. destruct Hcons as (Hcells & _). apply Hcells.
    rewrite Hst. by apply list_elem_of_further.
  - intros q Hq Hin. apply list_elem_of_singleton in Hin as ->. done.
Qed.
End solutions.

Section unsolvable.
Implicit Types (s : State) (x y : Z).

Lemma levels_unsolvable levelNum :
  levelNum ≠ 1 → levelNum ≠ 2 → levelNum ≠ 3 →
  solvable (levelShape levelNum).1 (levelShape levelNum).2 = false.
Proof.
  intros H1 H2 H3. unfold levelShape.
  destruct (levelNum =? 1) eqn:E1; [by apply Z.eqb_eq in E1|].
  destruct (levelNum =? 2) eqn:E2; [by apply Z.eqb_eq in E2|].
  destruct (levelNum =? 3) eqn:E3; [by apply Z.eqb_eq in E3|].
  destruct (levelNum =? 4); by vm_compute.
Qed.

Lemma levels_have_targets levelNum :
  length (targets_of (levelShape levelNum).1) ≠ 0%nat.
Proof. unfold levelShape. repeat case_match; by vm_compute. Qed.

Lemma generateLevel_level s levelNum : level (generateLevel s levelNum) = level s.
Proof. unfold generateLevel. by destruct (levelShape levelNum). Qed.

Lemma generateLevel_timers s levelNum :
  timers (generateLevel s levelNum) = timers s.
Proof. unfold generateLevel. by destruct (levelShape levelNum). Qed.

Lemma generateLevel_isCompleted s levelNum :
  isCompleted (generateLevel s levelNum) = false.
Proof. unfold generateLevel. by destruct (levelShape levelNum). Qed.

Lemma generateLevel_stroke s levelNum :
  currentStroke (generateLevel s levelNum) = [].
Proof. unfold generateLevel. by destruct (levelShape levelNum). Qed.

Lemma stuck_same levelNum s s' :
  targetPattern s' = targetPattern s →
  paintedPattern s' = paintedPattern s →
  currentStroke s' = currentStroke s →
  startingPoint s' = startingPoint s →
  level s' = level s →
  isCompleted s' = isCompleted s →
  Forall check_fails (timers s') →
  Forall timer_ok (timers s') →
  stuck_at levelNum s → stuck_at levelNum s'.
Proof.
  intros Et Eg Es Ep El Ec Hf Hok (HI & Hl & HL & Hc & _).
  split; [by eapply (Inv_same_session s)|].
  split; [congruence|]. split; [by eapply level_session_same|].
  split; [congruence|done].
Qed.

Lemma click_stuck levelNum s x y b s' :
  solvable (levelShape levelNum).1 (levelShape levelNum).2 = false →
  stuck_at levelNum s → click_spec s x y b s' → stuck_at levelNum s'.
Proof.
  intros Hsolv (HI & Hl & HL & Hc & Hf) Hspec.
  pose proof (click_Inv _ _ _ _ _ HI Hspec) as HI'.
  destruct (click_spec_keeps _ _ _ _ _ Hspec) as (Et & Ep & El & Ec & _).
  assert (level_session s') as HL' by by eapply level_session_same.
  split; [done|]. split; [congruence|]. split; [done|]. split; [congruence|].
  destruct Hspec as [Hrej | g' _ _ _ _ _ | g' Hin Htgt Hle Hvalid Hok Hg'];
    [done..|].
  apply Forall_app. split; [done|]. apply Forall_singleton. simpl.
  destruct HI as ((Ht & _) & _).
  destruct (checkCompletion_ok (targetPattern s) g' Ht Hok) as (d & Hd & Hiff).
  rewrite Hd. f_equal. destruct d; [exfalso|done].
  destruct HL' as [Et' Ep']. rewrite El, Hl in Et', Ep'.
  apply (unsolvable_not_painted _ _ HI' Ep').
  - simpl. by destruct (currentStroke s).
  - by rewrite Et'.
  - apply covered_all_painted; [apply HI'|]. by apply Hiff.
Qed.

Lemma step_stuck levelNum s e :
  solvable (levelShape levelNum).1 (levelShape levelNum).2 = false →
  stuck_at levelNum s → ∃ s', step s e = Some s' ∧ stuck_at levelNum s'.
Proof.
  intros Hsolv Hs. pose proof Hs as (HI & Hl & HL & Hc & Hf).
  destruct e as [x y|x y| | |i]; simpl.
  - unfold handlePointerDown. rewrite Hc.
    assert (stuck_at levelNum (setIsDrawing s true)) as Hs'.
    { eapply (stuck_same _ s); try done. apply HI. }
    destruct (handleCellClick_spec (setIsDrawing s true) x y) as (b & s' & Hclick & Hspec);
      [apply Hs'|].
    rewrite Hclick. simpl. eexists. split; [done|]. by eapply click_stuck.
  - unfold handlePointerMove. rewrite Hc.
    destruct (negb (isDrawing s)); simpl; [by eauto|].
    destruct (handleCellClick_spec s x y (proj1 HI)) as (b & s' & Hclick & Hspec).
    rewrite Hclick. simpl. eexists. split; [done|]. by eapply click_stuck.
  - eexists. split; [done|]. eapply (stuck_same _ s); try done. apply HI.
  - eexists. split; [done|]. unfold resetLevel.
    split; [apply generateLevel_Inv, HI|].
    split; [by rewrite generateLevel_level|].
    split; [apply generateLevel_level_session|].
    split; [apply generateLevel_isCompleted|].
    by rewrite generateLevel_timers.
  - unfold timerFires.
    destruct (timers s !! i) as [[target newPattern|]|] eqn:Hi; [| |by eauto].
    + pose proof (Forall_lookup_1 _ _ _ _ Hf Hi) as Hfail. simpl in Hfail.
      unfold completionCheckFires. rewrite Hfail. simpl.
      eexists. split; [done|]. eapply (stuck_same _ s); try done.
      * by apply Forall_delete.
      * apply Forall_delete, HI.
    + by pose proof (Forall_lookup_1 _ _ _ _ Hf Hi).
Qed.

Lemma run_stuck levelNum events :
  solvable (levelShape levelNum).1 (levelShape levelNum).2 = false →
  ∀ s, stuck_at levelNum s →
       ∃ s', run s events = Some s' ∧ stuck_at levelNum s'.
Proof.
  intros Hsolv. induction events as [|e rest IH]; intros s Hs; [by eauto|].
  destruct (step_stuck levelNum s e Hsolv Hs) as (s1 & Hstep & Hs1).
  destruct (IH s1 Hs1) as (s' & Hrun & Hs').
  exists s'. split; [|done]. simpl. by rewrite Hstep.
Qed.

(** X2.  A level generated for a number other than 1, 2 and 3 (the zigzag
    of level 4 and the spiral of every other number) has no one-stroke
    solution, and it shows: begun with no timer pending, such a level is
    never completed.  Whatever the events, the component keeps running,
    [isCompleted] stays false, the level number stays the same and some
    target cell stays unpainted. *)
Theorem unsolvable_level_never_completes s levelNum events :
  levelNum ≠ 1 → levelNum ≠ 2 → levelNum ≠ 3 →
  level s = levelNum → timers s = [] →
  ∃ s', run (generateLevel s levelNum) events = Some s' ∧
        isCompleted s' = false ∧ level s' = levelNum ∧ ¬ all_painted s'.
Proof.
  intros H1 H2 H3 Hl Htm.
  pose proof (levels_unsolvable levelNum H1 H2 H3) as Hsolv.
  assert (stuck_at levelNum (generateLevel s levelNum)) as Hs.
  { split; [apply generateLevel_Inv; by rewrite Htm|].
    split; [by rewrite generateLevel_level|].
    split; [rewrite <- Hl; apply generateLevel_level_session|].
    split; [apply generateLevel_isCompleted|].
    rewrite generateLevel_timers, Htm. constructor. }
  destruct (run_stuck levelNum events Hsolv _ Hs) as (s' & Hrun & Hs').
  exists s'. split; [done|].
  destruct Hs' as (HI & Hl' & [Et Ep] & Hc & _). do 2 (split; [done|]).
  rewrite Hl' in Et, Ep.
  destruct (currentStroke s') as [|p rest] eqn:Hst.
  - intros Hall. apply (all_painted_length s') in Hall; [|apply HI].
    rewrite Hst, Et in Hall. by apply (levels_have_targets levelNum).
  - apply (unsolvable_not_painted _ _ HI Ep); [by rewrite Hst|by rewrite Et].
Qed.
End unsolvable.

Section drawing.
Implicit Types (s : State) (x y : Z) (l p q : Position).

Lemma run_app s es1 es2 :
  run s (es1 ++ es2) = run s es1 ≫= λ s', run s' es2.
Proof.
  revert s. induction es1 as [|e es1 IH]; intros s; [done|].
  simpl. destruct (step s e) as [s1|]; [|done]. simpl. apply IH.
Qed.

Lemma draw_snoc p rest q :
  draw (p :: rest ++ [q]) =
  draw (p :: rest) ++ [PointerMove (pos_x q) (pos_y q)].
Proof. simpl. by rewrite fmap_app. Qed.

Lemma chain_snoc l rest q :
  chain l (rest ++ [q]) →
  chain l rest ∧ ∃ e, last (l :: rest) = Some e ∧ areAdjacent e q = true.
Proof.
  revert l. induction rest as [|r rest IH]; intros l.
  - intros [Hadj _]. split; [done|]. by exists l.
  - intros [Hadj Hch]. destruct (IH r Hch) as [Hch' (e & He & Hadj')].
    split; [by split|]. exists e. by rewrite last_cons_cons.
Qed.

(** A touch of an unpainted target cell that is a valid move extends the
    stroke by that cell and starts a check on the grid it has built. *)
Lemma click_extends s q :
  Inv s →
  in_grid (pos_x q) (pos_y q) →
  targetAt (targetPattern s) (pos_x q) (pos_y q) = true →
  q ∉ currentStroke s →
  isValidMove s (pos_x q) (pos_y q) = true →
  ∃ s', handleCellClick s (pos_x q) (pos_y q) = Some (Extended, s') ∧
        Inv s' ∧
        currentStroke s' = currentStroke s ++ [q] ∧
        timers s' =
          timers s ++ [CompletionCheck (targetPattern s) (paintedPattern s')] ∧
        targetPattern s' = targetPattern s ∧
        startingPoint s' = startingPoint s ∧
        isDrawing s' = isDrawing s ∧
        isCompleted s' = isCompleted s.
Proof.
  intros HI Hin Ht Hfresh Hvalid.
  destruct (handleCellClick_spec s (pos_x q) (pos_y q) (proj1 HI))
    as (b & s' & Hclick & Hspec).
  pose proof (click_Inv _ _ _ _ _ HI Hspec) as HI'.
  destruct Hspec as [Hrej | g' _ _ Hpos _ _ | g' _ _ _ _ _ _].
  - exfalso. destruct Hrej as [?|[?|[_ ?]]]; [done|congruence|congruence].
  - exfalso. apply Hfresh.
    destruct HI as (_ & _ & Hcons & _).
    destruct (painted_on_stroke s _ _ Hcons Hin Hpos) as [Hl _].
    destruct q. by eapply list_elem_of_lookup_2.
  - exists (setPaint s (currentStroke s ++ [mkPosition (pos_x q) (pos_y q)]) g'
              (timers s ++ [CompletionCheck (targetPattern s) g'])).
    split; [done|]. split; [done|]. simpl. by destruct q.
Qed.

Lemma draw_path s0 p rest :
  fresh_session s0 → isCompleted s0 = false → startingPoint s0 = Some p →
  chain p rest → NoDup (p :: rest) →
  (∀ q, q ∈ p :: rest →
        in_grid (pos_x q) (pos_y q) ∧
        targetAt (targetPattern s0) (pos_x q) (pos_y q) = true) →
  ∃ s, run s0 (draw (p :: rest)) = Some s ∧ Inv s ∧
       currentStroke s = p :: rest ∧
       isDrawing s = true ∧ isCompleted s = false ∧
       targetPattern s = targetPattern s0 ∧
       startingPoint s = startingPoint s0 ∧
       ∃ tm, timers s =
               tm ++ [CompletionCheck (targetPattern s0) (paintedPattern s)] ∧
             length tm = length rest.
Proof.
  intros Hf Hc Hstart. induction rest as [|q rest IH] using rev_ind;
    intros Hch Hnd Htgt.
  - pose proof Hf as (_ & _ & Hst & Htm).
    destruct (click_extends (setIsDrawing s0 true) p) as (s' & Hclick & HI' & Es & Et & Etp & Esp & Ed & Ec).
    + by apply setIsDrawing_Inv, fresh_Inv.
    + apply Htgt, list_elem_of_here.
    + apply Htgt, list_elem_of_here.
    + simpl. rewrite Hst. apply not_elem_of_nil.
    + apply isValidMove_first; [done|]. simpl. by destruct p.
    + exists s'. simpl. unfold handlePointerDown. rewrite Hc, Hclick. simpl.
      split; [done|]. split; [done|]. simpl in *.
      split; [by rewrite Es, Hst|]. do 4 (split; [congruence|]).
      exists []. by rewrite Et, Htm.
  - apply chain_snoc in Hch as [Hch (e & He & Hadj)].
    rewrite app_comm_cons in Hnd. apply NoDup_app in Hnd as (Hnd & Hq & _).
    destruct IH as (s & Hrun & HI & Es & Ed & Ec & Etp & Esp & tm & Etm & Hlen);
      [done|done| |].
    { intros q' Hq'. apply Htgt. rewrite app_comm_cons.
      apply elem_of_app. by left. }
    destruct (click_extends s q) as (s' & Hclick & HI' & Es' & Et' & Etp' & Esp' & Ed' & Ec').
    + done.
    + apply Htgt. rewrite app_comm_cons, elem_of_app, list_elem_of_singleton. by right.
    + rewrite Etp. apply Htgt.
      rewrite app_comm_cons, elem_of_app, list_elem_of_singleton. by right.
    + rewrite Es. intros Hin. apply (Hq q Hin). apply list_elem_of_here.
    + unfold isValidMove. rewrite Es, He. by destruct q.
    + exists s'. rewrite draw_snoc, run_app, Hrun. simpl.
      unfold handlePointerMove. rewrite Ed, Ec, Hclick. simpl.
      split; [done|]. split; [done|]. split; [by rewrite Es', Es|].
      do 4 (split; [congruence|]).
      exists (timers s). split; [by rewrite Et', Etp|].
      rewrite Etm, !length_app. simpl. lia.
Qed.

(** X1.  Drawing a one-stroke solution completes the level.  On a fresh,
    uncompleted session, the gesture that goes down on the start point and
    moves along a path through all target cells runs without an error and
    leaves exactly that path as the stroke, with every target cell painted;
    the completion check started by its last cell is the last pending timer,
    and when it fires [isCompleted] is set and the level advance is
    scheduled. *)
Theorem drawing_solution_completes s0 (path : list Position) :
  fresh_session s0 → isCompleted s0 = false → one_stroke s0 path →
  ∃ s s',
    run s0 (draw path) = Some s ∧
    currentStroke s = path ∧ all_painted s ∧ isCompleted s = false ∧
    step s (TimerFires (length path - 1)) = Some s' ∧
    isCompleted s' = true ∧ currentStroke s' = path ∧
    last (timers s') = Some LevelAdvance.
Proof.
  intros Hf Hc ((p & rest & -> & Hstart & Hch) & Hnd & Hcells).
  destruct (draw_path s0 p rest Hf Hc Hstart Hch Hnd)
    as (s & Hrun & HI & Es & Ed & Ec' & Etp & Esp & tm & Etm & Hlen).
  { intros q Hq. by apply Hcells. }
  assert (all_painted s) as Hall.
  { apply all_painted_length; [apply HI|]. rewrite Es, Etp.
    apply Permutation_length, NoDup_Permutation;
      [done|apply targets_of_NoDup|].
    intros q. by rewrite targets_of_spec. }
  destruct HI as ((Ht & Hg) & _ & Hcons & _).
  destruct (checkCompletion_ok (targetPattern s) (paintedPattern s) Ht Hg)
    as (d & Hd & Hiff).
  assert (d = true) as -> by by apply Hiff, covered_all_painted.
  eexists s, _. split; [done|]. do 3 (split; [done|]).
  simpl. unfold timerFires. rewrite Etm.
  rewrite Nat.sub_0_r, <- Hlen, list_lookup_middle by done.
  unfold completionCheckFires. rewrite <- Etp, Hd. simpl.
  split; [done|]. split; [done|]. split; [done|]. apply last_snoc.
Qed.

Lemma generateLevel_target s levelNum :
  targetPattern (generateLevel s levelNum) = (levelShape levelNum).1.
Proof. unfold generateLevel. by destruct (levelShape levelNum). Qed.

Lemma generateLevel_start s levelNum :
  startingPoint (generateLevel s levelNum) = Some (levelShape levelNum).2.
Proof. unfold generateLevel. by destruct (levelShape levelNum). Qed.

(** A closed path, checked by evaluation, is a one-stroke solution. *)
Lemma one_stroke_by_evaluation s p rest :
  startingPoint s = Some p →
  chain p rest →
  bool_decide (NoDup (p :: rest)) = true →
  forallb (λ q, in_gridb (pos_x q) (pos_y q)
                && targetAt (targetPattern s) (pos_x q) (pos_y q)) (p :: rest)
    = true →
  forallb (λ q, bool_decide (q ∈ p :: rest)) (targets_of (targetPattern s))
    = true →
  one_stroke s (p :: rest).
Proof.
  intros Hstart Hch Hnd Hin Hall. split; [by exists p, rest|].
  split; [by apply bool_decide_eq_true in Hnd|].
  intros q. split.
  - intros Hq. apply list_elem_of_In in Hq.
    rewrite forallb_forall in Hin. specialize (Hin q Hq).
    apply andb_true_iff in Hin as [Hg Ht]. by apply in_gridb_spec in Hg.
  - intros Hq. apply targets_of_spec, list_elem_of_In in Hq.
    rewrite forallb_forall in Hall. specialize (Hall q Hq).
    by apply bool_decide_eq_true in Hall.
Qed.

(** X3.  Each of the levels 1, 2 and 3 has a one-stroke solution: the path
    [levelSolution] begins at the generated start point, goes from cell to
    adjacent cell, and visits every target cell of the generated pattern
    exactly once and no other cell. *)
Theorem first_levels_solvable s levelNum :
  1 ≤ levelNum ≤ 3 →
  one_stroke (generateLevel s levelNum) (levelSolution levelNum).
Proof.
  intros Hl.
  assert (levelNum = 1 ∨ levelNum = 2 ∨ levelNum = 3) as Hcase by lia.
  destruct Hcase as [E|[E|E]]; subst levelNum.
  all: apply one_stroke_by_evaluation;
    [by rewrite generateLevel_start
    |by vm_compute
    |by vm_compute
    |rewrite generateLevel_target; by vm_compute
    |rewrite generateLevel_target; by vm_compute].
Qed.
End drawing.

Section undo.
Implicit Types (s : State) (x y k : Z) (g : Painted).

(** Two well-shaped painted grids with the same orders are the same grid. *)
Lemma painted_ext g1 g2 :
  painted_ok g1 → painted_ok g2 →
  (∀ x y, in_grid x y → orderAt g1 x y = orderAt g2 x y) →
  g1 = g2.
Proof.
  intros Hg1 Hg2 Heq. apply list_eq. intros i.
  destruct (decide (i < Z.to_nat GRID_SIZE)%nat) as [Hi|Hi].
  2:{ destruct Hg1 as [Hl1 _], Hg2 as [Hl2 _].
      rewrite !lookup_ge_None_2; [done|lia|lia]. }
  destruct (painted_ok_cell g1 i 0 Hg1 Hi) as (r1 & _ & Hr1 & _ & Hlen1);
    [unfold GRID_SIZE; lia|].
  destruct (painted_ok_cell g2 i 0 Hg2 Hi) as (r2 & _ & Hr2 & _ & Hlen2);
    [unfold GRID_SIZE; lia|].
  rewrite Hr1, Hr2. f_equal. apply list_eq. intros j.
  destruct (decide (j < Z.to_nat GRID_SIZE)%nat) as [Hj|Hj].
  2:{ rewrite !lookup_ge_None_2; [done|lia|lia]. }
  destruct (painted_ok_cell g1 i j Hg1 Hi Hj) as (r1' & v1 & Hr1' & Hv1 & _).
  destruct (painted_ok_cell g2 i j Hg2 Hi Hj) as (r2' & v2 & Hr2' & Hv2 & _).
  assert (r1' = r1) as -> by congruence. assert (r2' = r2) as -> by congruence.
  specialize (Heq (Z.of_nat j) (Z.of_nat i)).
  rewrite !orderAt_nat, Hr1, Hr2 in Heq. simpl in Heq.
  rewrite Hv1, Hv2 in Heq. simpl in Heq.
  rewrite Hv1, Hv2, Heq; [done|]. by apply in_grid_of_nat.
Qed.

(** Paint orders never exceed the length of the stroke. *)
Lemma order_le_length s x y :
  consistent s → in_grid x y →
  orderAt (paintedPattern s) x y ≤ Z.of_nat (length (currentStroke s)).
Proof.
  intros (_ & Hnn & Hiff) Hin. specialize (Hnn x y Hin).
  destruct (decide (orderAt (paintedPattern s) x y = 0)) as [->|Hne]; [lia|].
  destruct (Hiff x y (Z.to_nat (orderAt (paintedPattern s) x y - 1)) Hin)
    as [Hto _].
  apply lookup_lt_Some in Hto; lia.
Qed.

(** X4.  In every session reached from a fresh one the stroke never holds a
    cell twice, it never holds more cells than the pattern has target cells,
    and every target cell is painted exactly when the two counts are
    equal. *)
Theorem stroke_counts_targets s0 events s :
  fresh_session s0 → run s0 events = Some s →
  NoDup (currentStroke s) ∧
  (length (currentStroke s) ≤ length (targets_of (targetPattern s)))%nat ∧
  (all_painted s ↔
   length (currentStroke s) = length (targets_of (targetPattern s))).
Proof.
  intros Hf Hrun.
  destruct (reached_Inv _ _ _ Hf Hrun) as (_ & _ & Hcons & _).
  split; [by apply stroke_NoDup|]. split; [|by apply all_painted_length].
  apply submseteq_length, NoDup_submseteq; [by apply stroke_NoDup|].
  intros p. by apply stroke_in_targets.
Qed.

(** X5.  Reverting twice is reverting once: in every session reached from
    a fresh one, touching a painted cell and touching it again leaves the
    state the first touch produced. *)
Theorem revert_is_idempotent s0 events s x y :
  fresh_session s0 → run s0 events = Some s →
  in_grid x y → 0 < orderAt (paintedPattern s) x y →
  ∃ s1, handleCellClick s x y = Some (Reverted, s1) ∧
        handleCellClick s1 x y = Some (Reverted, s1).
Proof.
  intros Hf Hrun Hin Hpos.
  pose proof (reached_Inv _ _ _ Hf Hrun) as HI.
  pose proof HI as (Hshape & _ & Hcons & _).
  destruct (painted_on_stroke s x y Hcons Hin Hpos) as [_ Ht].
  destruct (handleCellClick_spec s x y Hshape) as (b & s1 & Hclick & Hspec).
  pose proof (click_Inv _ _ _ _ _ HI Hspec) as HI1.
  destruct Hspec as [Hrej | g1 _ _ _ Hok1 Hg1 | g1 _ _ Hle _ _ _]; [| |lia].
  { exfalso. destruct Hrej as [?|[?|[? _]]]; [done|congruence|lia]. }
  eexists. split; [done|].
  set (k := orderAt (paintedPattern s) x y) in *.
  assert (orderAt g1 x y = k) as Hk1.
  { rewrite Hg1 by done. unfold clear_order. fold k. by rewrite Z.ltb_irrefl. }
  destruct (handleCellClick_spec _ x y (proj1 HI1)) as (b & s2 & Hclick2 & Hspec2).
  rewrite Hclick2. f_equal.
  destruct Hspec2 as [Hrej | g2 _ _ _ Hok2 Hg2 | g2 _ _ Hle _ _ _]; simpl in *.
  - exfalso. destruct Hrej as [?|[?|[? _]]]; [done|congruence|lia].
  - f_equal. unfold setPaint. simpl. rewrite Hk1.
    rewrite take_take, Nat.min_id. f_equal.
    apply painted_ext; [done|done|].
    intros x' y' Hin'. rewrite Hg2 by done. rewrite Hk1.
    rewrite Hg1 by done. apply clear_order_idemp.
  - lia.
Qed.

(** X6.  Touching the previous cell undoes an extension: when a touch has
    extended the stroke, a touch of the cell that was last before it brings
    back the stroke and the painted grid of before; only the completion
    check started by the extension stays pending. *)
Theorem retouch_undoes_extension s0 events s x y l s1 :
  fresh_session s0 → run s0 events = Some s →
  last (currentStroke s) = Some l →
  handleCellClick s x y = Some (Extended, s1) →
  ∃ s2, handleCellClick s1 (pos_x l) (pos_y l) = Some (Reverted, s2) ∧
        currentStroke s2 = currentStroke s ∧
        paintedPattern s2 = paintedPattern s ∧
        timers s2 = timers s ++ [CompletionCheck (targetPattern s) (paintedPattern s1)].
Proof.
  intros Hf Hrun Hlast Hclick.
  pose proof (reached_Inv _ _ _ Hf Hrun) as HI.
  pose proof HI as (Hshape & _ & Hcons & _).
  destruct (handleCellClick_spec s x y Hshape) as (b & s1' & Hclick' & Hspec).
  rewrite Hclick in Hclick'. injection Hclick' as <- <-.
  pose proof (click_Inv _ _ _ _ _ HI Hspec) as HI1.
  inversion Hspec as [| |g1 Hin Htgt Hle Hvalid Hok1 Hg1 Hb Hs1]. subst s1.
  set (n := length (currentStroke s)) in *.
  rewrite last_lookup in Hlast. fold n in Hlast.
  pose proof (lookup_lt_Some _ _ _ Hlast) as Hn.
  pose proof Hcons as (Hcells & Hnn & Hiff).
  destruct (Hcells _ (list_elem_of_lookup_2 _ _ _ Hlast)) as [Hinl Htl].
  destruct l as [lx ly]. simpl in *.
  apply (Hiff lx ly _ Hinl) in Hlast.
  assert (orderAt g1 lx ly = Z.of_nat n) as Hl1.
  { rewrite Hg1 by done. case_decide as Hd; [|lia].
    destruct Hd as [-> ->]. lia. }
  destruct (handleCellClick_spec _ lx ly (proj1 HI1)) as (b & s2 & Hclick2 & Hspec2).
  destruct Hspec2 as [Hrej | g2 _ _ _ Hok2 Hg2 | g2 _ _ Hle2 _ _ _]; simpl in *.
  - exfalso. destruct Hrej as [?|[?|[? _]]]; [done|congruence|lia].
  - eexists. split; [done|]. rewrite Hl1.
    cbn [currentStroke paintedPattern timers setPaint].
    split; [|split; [|done]].
    + rewrite Nat2Z.id. by apply take_app_length.
    + apply painted_ext; [done|apply Hshape|].
      intros x' y' Hin'. rewrite Hg2 by done. rewrite Hl1. rewrite Hg1 by done.
      unfold clear_order. rewrite length_app. simpl. fold n.
      case_decide as Hd.
      * destruct Hd as [-> ->]. specialize (Hnn x y Hin).
        case_match eqn:E; [lia|]. apply Z.ltb_ge in E. lia.
      * pose proof (order_le_length s x' y' Hcons Hin') as Hle'. fold n in Hle'.
        case_match eqn:E; [|done]. apply Z.ltb_lt in E. lia.
  - lia.
Qed.
End undo.

Section gating.
Implicit Types (s : State) (x y : Z).

(** X7.  A completed session is frozen for the pointer: once [isCompleted]
    is set, no sequence of pointer events changes the stroke, the painted
    grid, the pattern, the flag, the level or the pending timers. *)
Theorem completed_session_is_frozen s events :
  isCompleted s = true →
  forallb is_pointer_event events = true →
  ∃ s', run s events = Some s' ∧
        currentStroke s' = currentStroke s ∧
        paintedPattern s' = paintedPattern s ∧
        targetPattern s' = targetPattern s ∧
        startingPoint s' = startingPoint s ∧
        isCompleted s' = true ∧
        level s' = level s ∧
        timers s' = timers s.
Proof.
  revert s. induction events as [|e rest IH]; intros s Hc Hev; [by eauto 10|].
  simpl in Hev. apply andb_true_iff in Hev as [He Hrest].
  assert (∃ s1, step s e = Some s1 ∧
                currentStroke s1 = currentStroke s ∧
                paintedPattern s1 = paintedPattern s ∧
                targetPattern s1 = targetPattern s ∧
                startingPoint s1 = startingPoint s ∧
                isCompleted s1 = true ∧
                level s1 = level s ∧
                timers s1 = timers s) as (s1 & Hstep & E1 & E2 & E3 & E4 & E5 & E6 & E7).
  { destruct e as [x y|x y| | |i]; try done; simpl.
    - unfold handlePointerDown. rewrite Hc. by eauto 10.
    - unfold handlePointerMove. rewrite Hc, orb_true_r. by eauto 10.
    - by eauto 10. }
  destruct (IH s1 E5 Hrest) as (s' & Hrun & F1 & F2 & F3 & F4 & F5 & F6 & F7).
  exists s'. simpl. rewrite Hstep. simpl.
  split; [done|]. repeat split; congruence.
Qed.

(** X8.  Moving the pointer without the button down paints nothing: while
    [isDrawing] is false, any sequence of pointer moves leaves the state as
    it is. *)
Theorem hovering_changes_nothing s events :
  isDrawing s = false →
  forallb is_pointer_move events = true →
  run s events = Some s.
Proof.
  intros Hd. induction events as [|e rest IH]; intros Hev; [done|].
  simpl in Hev. apply andb_true_iff in Hev as [He Hrest].
  destruct e as [x y|x y| | |i]; try done. simpl.
  unfold handlePointerMove. rewrite Hd. simpl. by apply IH.
Qed.
End gating.

(** * Rendering and pointer coordinates *)

Section rendering.
Implicit Types (s : State) (x y : Z).

Lemma js_index_in {A : Type} (l : list A) (i : Z) :
  0 ≤ i → js_index l i = l !! Z.to_nat i.
Proof. intros Hi. unfold js_index. by rewrite (proj2 (Z.ltb_ge i 0) Hi). Qed.

Lemma isTarget_in s x y :
  in_grid x y → isTarget s x y = targetAt (targetPattern s) x y.
Proof.
  intros [[Hx _] [Hy _]]. unfold isTarget, targetAt.
  rewrite js_index_in by done.
  destruct (targetPattern s !! Z.to_nat y) as [row|]; [|done]. simpl.
  by rewrite js_index_in.
Qed.

Lemma isTarget_out s x y :
  pattern_ok (targetPattern s) → ¬ in_grid x y → isTarget s x y = false.
Proof.
  intros [Hlen Hrows] Hout. unfold isTarget, js_index.
  destruct (y <? 0) eqn:Ey; [done|]. apply Z.ltb_ge in Ey.
  destruct (targetPattern s !! Z.to_nat y) as [row|] eqn:Hrow; [|done]. simpl.
  destruct (x <? 0) eqn:Ex; [done|]. apply Z.ltb_ge in Ex.
  rewrite Forall_lookup in Hrows. specialize (Hrows _ _ Hrow).
  apply lookup_lt_Some in Hrow.
  rewrite lookup_ge_None_2; [done|].
  unfold in_grid, GRID_SIZE in *. lia.
Qed.

Lemma paintOrder_in s x y :
  painted_ok (paintedPattern s) → in_grid x y →
  (js_index (paintedPattern s) y ≫= λ row, mjoin (js_index row x))
  = Some (orderAt (paintedPattern s) x y).
Proof.
  intros Hg Hin. destruct (in_grid_nat x y Hin) as (Hy & Hx & Ex & Ey).
  destruct Hin as [[Hx0 _] [Hy0 _]].
  destruct (painted_ok_cell _ _ _ Hg Hy Hx) as (row & v & Hrow & Hv & _).
  unfold orderAt. rewrite js_index_in, Hrow by done. simpl.
  by rewrite js_index_in, Hv.
Qed.

(** The start point of a session with a stroke is painted. *)
Lemma start_painted s p :
  consistent s → is_path s → currentStroke s ≠ [] →
  startingPoint s = Some p →
  orderAt (paintedPattern s) (pos_x p) (pos_y p) = 1.
Proof.
  intros (Hcells & _ & Hiff) [_ Hhead] Hne Hstart.
  destruct (currentStroke s) as [|q rest] eqn:Hst; [done|].
  specialize (Hhead q eq_refl). assert (q = p) as -> by congruence.
  destruct (Hcells p) as [Hin _]; [apply list_elem_of_here|].
  destruct p as [px py]. simpl in *. by apply (Hiff px py 0%nat Hin).
Qed.

(** X9.  What the type of a cell says.  In every session reached from a
    fresh one, [getCellType] answers ['empty'] exactly for the cells that are
    not target cells of the grid, ['painted'] exactly for the cells on the
    stroke, and ['start'] exactly for the start point while the stroke is
    empty (and the start point is a target cell); every other target cell is
    a ['target']. *)
Theorem cell_type_reflects_session s0 events s x y :
  fresh_session s0 → run s0 events = Some s →
  (getCellType s x y = cell_empty ↔
     ¬ (in_grid x y ∧ targetAt (targetPattern s) x y = true)) ∧
  (getCellType s x y = cell_painted ↔ mkPosition x y ∈ currentStroke s) ∧
  (getCellType s x y = cell_start ↔
     in_grid x y ∧ targetAt (targetPattern s) x y = true ∧
     startingPoint s = Some (mkPosition x y) ∧ currentStroke s = []) ∧
  (getCellType s x y = cell_target ↔
     in_grid x y ∧ targetAt (targetPattern s) x y = true ∧
     (mkPosition x y ∉ currentStroke s) ∧
     ¬ (startingPoint s = Some (mkPosition x y) ∧ currentStroke s = [])).
Proof.
  intros Hf Hrun.
  destruct (reached_Inv _ _ _ Hf Hrun) as ((Ht & Hg) & _ & Hcons & Hpath).
  pose proof Hcons as (Hcells & Hnn & Hiff).
  assert (mkPosition x y ∈ currentStroke s →
          in_grid x y ∧ targetAt (targetPattern s) x y = true) as Hstroke.
  { intros Hon. by destruct (Hcells _ Hon). }
  unfold getCellType.
  destruct (decide (in_grid x y)) as [Hin|Hout].
  2:{ rewrite (isTarget_out s x y Ht Hout). simpl.
      intuition (discriminate || done). }
  rewrite (isTarget_in s x y Hin), (paintOrder_in s x y Hg Hin).
  destruct (targetAt (targetPattern s) x y) eqn:Htgt; simpl.
  2:{ intuition (discriminate || done). }
  assert (0 < orderAt (paintedPattern s) x y ↔ mkPosition x y ∈ currentStroke s)
    as Hon.
  { split.
    - intros Hpos. destruct (painted_on_stroke s x y Hcons Hin Hpos) as [Hl _].
      by eapply list_elem_of_lookup_2.
    - intros Hl. apply list_elem_of_lookup_1 in Hl as [i Hi].
      apply (Hiff x y i Hin) in Hi. lia. }
  destruct (0 <? orderAt (paintedPattern s) x y) eqn:Hpos.
  { apply Z.ltb_lt in Hpos. pose proof (proj1 Hon Hpos) as Hl.
    assert (currentStroke s ≠ []) as Hne.
    { intros Hst. rewrite Hst in Hl. by apply elem_of_nil in Hl. }
    intuition (discriminate || done). }
  apply Z.ltb_ge in Hpos.
  assert (orderAt (paintedPattern s) x y = 0) as Hz
    by (specialize (Hnn x y Hin); lia).
  assert (mkPosition x y ∉ currentStroke s) as Hoff by (rewrite <- Hon; lia).
  rewrite Hz, bool_decide_eq_true_2 by done.
  destruct (startingPoint s) as [[sx sy]|] eqn:Hstart; simpl.
  2:{ intuition (discriminate || done). }
  destruct (decide (mkPosition sx sy = mkPosition x y)) as [E|Hne].
  - injection E as -> ->. rewrite !Z.eqb_refl. simpl.
    assert (currentStroke s = []) as Hst.
    { destruct (decide (currentStroke s = [])) as [|Hne]; [done|].
      pose proof (start_painted s _ Hcons Hpath Hne Hstart) as H1.
      simpl in H1. lia. }
    intuition (discriminate || done).
  - assert ((x =? sx) && (y =? sy) = false) as ->.
    { apply andb_false_iff.
      destruct (decide (x = sx)) as [->|]; [right|left]; apply Z.eqb_neq;
        congruence. }
    simpl.
    assert (Some (mkPosition sx sy) ≠ Some (mkPosition x y)) as Hns by congruence.
    intuition (discriminate || done).
Qed.

Lemma getCellType_empty s x y :
  getCellType s x y = cell_empty ↔ isTarget s x y = false.
Proof.
  unfold getCellType. destruct (isTarget s x y); simpl; [|done].
  split; [|done]. by repeat case_match.
Qed.

Lemma renderTiles_spec s t :
  t ∈ renderTiles s ↔
  in_grid (tile_x t) (tile_y t) ∧
  isTarget s (tile_x t) (tile_y t) = true ∧
  t = mkTile (tile_x t) (tile_y t) (getCellType s (tile_x t) (tile_y t))
             (tile_x t * (TILE_SIZE + TILE_GAP) + 16)
             (tile_y t * (TILE_SIZE + TILE_GAP) + 16).
Proof.
  unfold renderTiles. rewrite list_elem_of_bind. split.
  - intros ([cy cx] & Hin & Hc). apply grid_cells_spec in Hc. simpl in Hin.
    destruct (isTarget s (Z.of_nat cx) (Z.of_nat cy)) eqn:Ht;
      [|by apply elem_of_nil in Hin].
    apply list_elem_of_singleton in Hin as ->. simpl.
    split; [by apply in_grid_of_nat|done].
  - intros (Hin & Ht & Et).
    destruct (in_grid_nat _ _ Hin) as (Hy & Hx & Ex & Ey).
    exists (Z.to_nat (tile_y t), Z.to_nat (tile_x t)). simpl.
    rewrite Ex, Ey, Ht. split; [|by apply grid_cells_spec].
    rewrite Et at 1. apply list_elem_of_here.
Qed.

(** X10.  The tiles of the markup are the target cells.  In any state
    whatever, a tile is rendered for a cell exactly when the cell lies in the
    grid and is a target cell; its type is the one [getCellType] gives and is
    never ['empty'], and its [left] and [top] are the cell's indices times
    the tile pitch plus the padding. *)
Theorem tiles_are_the_target_cells s :
  (∀ t, t ∈ renderTiles s →
        in_grid (tile_x t) (tile_y t) ∧
        targetAt (targetPattern s) (tile_x t) (tile_y t) = true ∧
        tile_type t = getCellType s (tile_x t) (tile_y t) ∧
        tile_type t ≠ cell_empty ∧
        tile_left t = tile_x t * (TILE_SIZE + TILE_GAP) + 16 ∧
        tile_top t = tile_y t * (TILE_SIZE + TILE_GAP) + 16) ∧
  (∀ x y, in_grid x y → targetAt (targetPattern s) x y = true →
          ∃ t, t ∈ renderTiles s ∧ tile_x t = x ∧ tile_y t = y).
Proof.
  split.
  - intros t Ht. apply renderTiles_spec in Ht as (Hin & Htgt & Et).
    split; [done|]. split; [by rewrite <- isTarget_in|].
    rewrite Et. simpl. split; [done|]. split; [|done].
    rewrite getCellType_empty. congruence.
  - intros x y Hin Htgt.
    exists (mkTile x y (getCellType s x y)
                   (x * (TILE_SIZE + TILE_GAP) + 16)
                   (y * (TILE_SIZE + TILE_GAP) + 16)).
    split; [|done]. apply renderTiles_spec. simpl.
    split; [done|]. split; [|done]. by rewrite isTarget_in.
Qed.

Lemma cellAt_tile i d origin :
  0 ≤ d < TILE_SIZE + TILE_GAP →
  cellAt (origin + (i * (TILE_SIZE + TILE_GAP) + 16) + d) origin = i.
Proof.
  unfold cellAt, TILE_SIZE, TILE_GAP. intros Hd.
  replace (origin + (i * (40 + 6) + 16) + d - origin - 16) with (d + i * 46)
    by lia.
  rewrite Z.div_add by lia. rewrite Z.div_small by lia. lia.
Qed.

Lemma cellAt_in_grid cx cy ox oy :
  in_grid (cellAt cx ox) (cellAt cy oy) ↔
  16 ≤ cx - ox < 16 + GRID_SIZE * (TILE_SIZE + TILE_GAP) ∧
  16 ≤ cy - oy < 16 + GRID_SIZE * (TILE_SIZE + TILE_GAP).
Proof.
  unfold in_grid, cellAt, GRID_SIZE, TILE_SIZE, TILE_GAP.
  change (40 + 6) with 46.
  pose proof (Z.div_mod (cx - ox - 16) 46) as Hx.
  pose proof (Z.mod_pos_bound (cx - ox - 16) 46) as Hx'.
  pose proof (Z.div_mod (cy - oy - 16) 46) as Hy.
  pose proof (Z.mod_pos_bound (cy - oy - 16) 46) as Hy'.
  lia.
Qed.

(** X11.  A press on a tile touches the cell of the tile.  For integer
    pixel coordinates, pressing or moving the mouse on any pixel of a
    rendered tile, or of the gap to its right and below, is handled as a
    touch of the cell the tile was rendered for. *)
Theorem press_on_tile_touches_its_cell s t dx dy rectLeft rectTop :
  t ∈ renderTiles s →
  0 ≤ dx < TILE_SIZE + TILE_GAP → 0 ≤ dy < TILE_SIZE + TILE_GAP →
  mouseDown s (rectLeft + tile_left t + dx) (rectTop + tile_top t + dy)
            rectLeft rectTop
    = handlePointerDown s (tile_x t) (tile_y t) ∧
  mouseMove s (rectLeft + tile_left t + dx) (rectTop + tile_top t + dy)
            rectLeft rectTop
    = handlePointerMove s (tile_x t) (tile_y t).
Proof.
  intros Ht Hdx Hdy. apply renderTiles_spec in Ht as (_ & _ & Et).
  unfold mouseDown, mouseMove. rewrite Et. simpl.
  by rewrite !cellAt_tile.
Qed.

(** X12.  A press beside the grid paints nothing.  For integer pixel
    coordinates, a mouse press whose offset from the container's corner is
    less than the 16 pixels of padding, or at least 16 pixels plus
    [GRID_SIZE] tile pitches, on either axis, only sets [isDrawing]; a mouse
    move there changes nothing.  This holds in any state, even before a
    level has been generated. *)
Theorem press_beside_grid_is_ignored s clientX clientY rectLeft rectTop :
  ¬ (16 ≤ clientX - rectLeft < 16 + GRID_SIZE * (TILE_SIZE + TILE_GAP) ∧
     16 ≤ clientY - rectTop < 16 + GRID_SIZE * (TILE_SIZE + TILE_GAP)) →
  mouseDown s clientX clientY rectLeft rectTop
    = Some (if isCompleted s then s else setIsDrawing s true) ∧
  mouseMove s clientX clientY rectLeft rectTop = Some s.
Proof.
  intros Hout. rewrite <- cellAt_in_grid in Hout.
  unfold mouseDown, mouseMove, handlePointerDown, handlePointerMove.
  rewrite !handleCellClick_out by done. simpl.
  split; [by destruct (isCompleted s)|].
  by destruct (negb (isDrawing s) || isCompleted s).
Qed.

Lemma levels_start_in_grid levelNum :
  in_grid (pos_x (levelShape levelNum).2) (pos_y (levelShape levelNum).2).
Proof. unfold levelShape. repeat case_match; by vm_compute. Qed.

(** X13.  The start marker shows exactly while nothing is painted.  In
    every state the mounted component reaches, rendering the starting point
    indicator indexes the painted grid without an error, and the indicator
    is shown exactly when the stroke is empty. *)
Theorem start_marker_iff_empty_stroke events s :
  run mounted events = Some s →
  startIndicator s = Some (bool_decide (currentStroke s = [])).
Proof.
  intros Hrun.
  pose proof (reached_Inv _ _ _ mounted_fresh Hrun) as HI.
  assert (level_session s) as [_ Ep].
  { eapply (run_level_session events mounted); [| |done].
    - apply fresh_Inv, mounted_fresh.
    - apply (generateLevel_level_session initialState). }
  pose proof (levels_start_in_grid (level s)) as Hin.
  destruct HI as ((_ & Hg) & _ & Hcons & Hpath).
  unfold startIndicator. rewrite Ep.
  set (sp := (levelShape (level s)).2) in *.
  pose proof (paintOrder_in s _ _ Hg Hin) as Hread.
  destruct (js_index (paintedPattern s) (pos_y sp)) as [row|]; [|done].
  simpl in *. rewrite Hread. f_equal.
  destruct (decide (currentStroke s = [])) as [Hst|Hne].
  - rewrite (bool_decide_eq_true_2 _ Hst). apply bool_decide_eq_true_2.
    f_equal. by apply empty_stroke_unpainted.
  - rewrite (bool_decide_eq_false_2 _ Hne). apply bool_decide_eq_false_2.
    rewrite (start_painted s sp Hcons Hpath Hne Ep). done.
Qed.

Lemma lines_from_spec stroke front :
  ∀ index,
    (∀ (j : nat) p, front !! j = Some p → stroke !! (index + j)%nat = Some p) →
    (index + length front < length stroke)%nat ∨ front = [] →
    ∃ lines,
      lines_from stroke index front = Some lines ∧
      length lines = length front ∧
      ∀ (j : nat) line, lines !! j = Some line →
        ∃ p q, stroke !! (index + j)%nat = Some p ∧
               stroke !! S (index + j) = Some q ∧
               line = mkLine (cellCentre (pos_x p)) (cellCentre (pos_y p))
                             (cellCentre (pos_x q)) (cellCentre (pos_y q)).
Proof.
  induction front as [|pos rest IH]; intros index Hfront Hlen.
  - exists []. by split; [|split; [|intros j line Hj]].
  - destruct Hlen as [Hlen|]; [|done]. simpl in Hlen.
    destruct (lookup_lt_is_Some_2 stroke (S index)) as [nextPos Hnext]; [lia|].
    destruct (IH (S index)) as (lines & Hlines & Hl & Hspec).
    + intros j p Hj.
      replace (S index + j)%nat with (index + S j)%nat by lia.
      by apply (Hfront (S j)).
    + left. lia.
    + simpl. rewrite Hnext, Hlines. simpl. eexists. split; [done|].
      split; [by simpl; rewrite Hl|].
      intros [|j] line Hj; simpl in Hj.
      * injection Hj as <-. exists pos, nextPos.
        rewrite Nat.add_0_r. split; [|done].
        rewrite <- (Nat.add_0_r index). by apply (Hfront 0%nat).
      * destruct (Hspec j line Hj) as (p & q & Hp & Hq & ->).
        exists p, q.
        by replace (index + S j)%nat with (S index + j)%nat by lia.
Qed.

(** X14.  The stroke lines join adjacent cells.  In every session reached
    from a fresh one the markup of the stroke lines is built without an
    error; there is one line less than there are cells on the stroke, the
    line of index [i] goes from the centre of cell [i] of the stroke to the
    centre of cell [i + 1], and it is horizontal or vertical and one tile
    pitch long. *)
Theorem stroke_lines_join_adjacent_cells s0 events s :
  fresh_session s0 → run s0 events = Some s →
  ∃ lines,
    strokeLines s = Some lines ∧
    length lines = (length (currentStroke s) - 1)%nat ∧
    ∀ (i : nat) line, lines !! i = Some line →
      (∃ p q, currentStroke s !! i = Some p ∧
              currentStroke s !! S i = Some q ∧
              line = mkLine (cellCentre (pos_x p)) (cellCentre (pos_y p))
                            (cellCentre (pos_x q)) (cellCentre (pos_y q))) ∧
      ((Z.abs (toX line - fromX line) = TILE_SIZE + TILE_GAP ∧
        toY line = fromY line) ∨
       (toX line = fromX line ∧
        Z.abs (toY line - fromY line) = TILE_SIZE + TILE_GAP)).
Proof.
  intros Hf Hrun.
  destruct (reached_Inv _ _ _ Hf Hrun) as (_ & _ & _ & Hadj & _).
  unfold strokeLines.
  destruct (1 <? length (currentStroke s))%nat eqn:Hlen.
  2:{ apply Nat.ltb_ge in Hlen. exists []. split; [done|].
      split; [simpl; lia|]. by intros i line Hi. }
  apply Nat.ltb_lt in Hlen.
  destruct (lines_from_spec (currentStroke s)
              (take (length (currentStroke s) - 1) (currentStroke s)) 0%nat)
    as (lines & Hlines & Hl & Hspec).
  - intros j p Hj. by apply lookup_take_Some in Hj as [Hj _].
  - left. rewrite length_take. lia.
  - exists lines. split; [done|]. split; [rewrite Hl, length_take; lia|].
    intros i line Hi. destruct (Hspec i line Hi) as (p & q & Hp & Hq & ->).
    simpl in Hp, Hq. split; [by exists p, q|].
    pose proof (Hadj i p q Hp Hq) as Ha. apply areAdjacent_spec in Ha.
    unfold grid_adjacent in Ha. simpl.
    unfold cellCentre, TILE_SIZE, TILE_GAP. lia.
Qed.
End rendering.

(** * Timers across sessions, and the whole game *)

Section game.
Implicit Types (s : State) (x y : Z).

(** X15.  Generating a level does not cancel pending timers.  A completion
    check that would succeed and is still pending when a level is generated
    (by a reset, or by the advance to the next level) fires on the new
    session: it sets [isCompleted] and schedules a level advance although the
    stroke is empty and nothing is painted. *)
Theorem pending_check_survives_generation s i target newPattern levelNum :
  timers s !! i = Some (CompletionCheck target newPattern) →
  checkCompletion target newPattern = Some true →
  ∃ s', step (generateLevel s levelNum) (TimerFires i) = Some s' ∧
        isCompleted s' = true ∧
        currentStroke s' = [] ∧
        paintedPattern s' = blank_painted ∧
        last (timers s') = Some LevelAdvance.
Proof.
  intros Hi Hcheck. simpl. unfold timerFires.
  rewrite generateLevel_timers, Hi. unfold completionCheckFires.
  rewrite Hcheck. simpl. eexists. split; [done|]. simpl.
  unfold generateLevel. destruct (levelShape levelNum). simpl.
  do 3 (split; [done|]). apply last_snoc.
Qed.

(** X16.  The game ends at level 4.  From the mounted component, playing
    the solutions of levels 1, 2 and 3 leads to a fresh session of level 4
    with no timer pending; and from there on, whatever happens, the level
    stays 4 and [isCompleted] stays false. *)
Theorem game_ends_at_level_four :
  ∃ s4,
    run mounted play_three_levels = Some s4 ∧
    level s4 = 4 ∧ currentStroke s4 = [] ∧ timers s4 = [] ∧
    ∀ events, ∃ s', run s4 events = Some s' ∧
                    level s' = 4 ∧ isCompleted s' = false.
Proof.
  exists level_four. split; [by vm_compute|]. do 3 (split; [done|]).
  intros events.
  assert (stuck_at 4 level_four) as Hs.
  { split; [apply generateLevel_Inv; constructor|].
    split; [done|]. split; [|split; [done|constructor]].
    apply (generateLevel_level_session (mkState [] [] [] None false 4 false [])). }
  destruct (run_stuck 4 events (levels_unsolvable 4 ltac:(lia) ltac:(lia) ltac:(lia))
              level_four Hs) as (s' & Hrun & _ & Hl & _ & Hc & _).
  by exists s'.
Qed.
End game.

(** ** The further theorems at concrete sessions *)

Lemma drawing_solution_completes_witness :
  one_stroke mounted (levelSolution 1) ∧
  ∃ s s',
    run mounted (draw (levelSolution 1)) = Some s ∧
    currentStroke s = levelSolution 1 ∧ all_painted s ∧ isCompleted s = false ∧
    step s (TimerFires (length (levelSolution 1) - 1)) = Some s' ∧
    isCompleted s' = true ∧ currentStroke s' = levelSolution 1 ∧
    last (timers s') = Some LevelAdvance.
Proof.
  assert (fresh_session mounted) as Hf.
  { repeat split; vm_compute; repeat constructor. }
  assert (one_stroke mounted (levelSolution 1)) as Hone.
  { apply one_stroke_by_evaluation; by vm_compute. }
  split; [exact Hone|].
  exact (drawing_solution_completes mounted (levelSolution 1) Hf eq_refl Hone).
Defined.

Lemma unsolvable_level_never_completes_witness :
  ∃ s', run level_four [PointerDown 1 1; PointerMove 2 1; TimerFires 0; ResetClick]
          = Some s' ∧
        isCompleted s' = false ∧ level s' = 4 ∧ ¬ all_painted s'.
Proof.
  apply (unsolvable_level_never_completes
           (mkState [] [] [] None false 4 false []) 4
           [PointerDown 1 1; PointerMove 2 1; TimerFires 0; ResetClick]);
    (lia || reflexivity).
Defined.

Lemma first_levels_solvable_witness :
  1 ≤ 2 ≤ 3 ∧ one_stroke (generateLevel initialState 2) (levelSolution 2).
Proof.
  assert (1 ≤ 2 ≤ 3) as H by lia.
  split; [exact H|]. exact (first_levels_solvable initialState 2 H).
Defined.

Lemma stroke_counts_targets_witness :
  run mounted three_cells_events = Some three_cells ∧
  NoDup (currentStroke three_cells) ∧
  (length (currentStroke three_cells)
   ≤ length (targets_of (targetPattern three_cells)))%nat.
Proof.
  assert (fresh_session mounted) as Hf.
  { repeat split; vm_compute; repeat constructor. }
  assert (run mounted three_cells_events = Some three_cells) as Hrun
    by reflexivity.
  split; [exact Hrun|].
  pose proof (stroke_counts_targets mounted three_cells_events three_cells
                Hf Hrun) as (Hnd & Hle & _).
  split; [exact Hnd|exact Hle].
Defined.

Lemma revert_is_idempotent_witness :
  0 < orderAt (paintedPattern three_cells) 1 2 ∧
  ∃ s1, handleCellClick three_cells 1 2 = Some (Reverted, s1) ∧
        handleCellClick s1 1 2 = Some (Reverted, s1).
Proof.
  assert (fresh_session mounted) as Hf.
  { repeat split; vm_compute; repeat constructor. }
  assert (run mounted three_cells_events = Some three_cells) as Hrun
    by reflexivity.
  assert (0 < orderAt (paintedPattern three_cells) 1 2) as Hpos by by vm_compute.
  split; [exact Hpos|].
  refine (revert_is_idempotent mounted three_cells_events three_cells 1 2
            Hf Hrun _ Hpos).
  unfold in_grid, GRID_SIZE. lia.
Defined.

Lemma retouch_undoes_extension_witness :
  handleCellClick two_cells 1 3
    = Some (Extended, (default (Rejected, two_cells)
                               (handleCellClick two_cells 1 3)).2) ∧
  ∃ s2, handleCellClick (default (Rejected, two_cells)
                                 (handleCellClick two_cells 1 3)).2 1 2
          = Some (Reverted, s2) ∧
        currentStroke s2 = currentStroke two_cells ∧
        paintedPattern s2 = paintedPattern two_cells.
Proof.
  assert (fresh_session mounted) as Hf.
  { repeat split; vm_compute; repeat constructor. }
  assert (run mounted [PointerDown 1 1; PointerMove 1 2] = Some two_cells)
    as Hrun by reflexivity.
  assert (handleCellClick two_cells 1 3
          = Some (Extended, (default (Rejected, two_cells)
                                     (handleCellClick two_cells 1 3)).2))
    as Hclick by reflexivity.
  split; [exact Hclick|].
  destruct (retouch_undoes_extension mounted [PointerDown 1 1; PointerMove 1 2]
              two_cells 1 3 (mkPosition 1 2) _ Hf Hrun eq_refl Hclick)
    as (s2 & H1 & H2 & H3 & _).
  exists s2. split; [exact H1|]. split; [exact H2|exact H3].
Defined.

Lemma completed_session_is_frozen_witness :
  ∃ s', run (mkState (targetPattern three_cells) (paintedPattern three_cells)
               (currentStroke three_cells) (startingPoint three_cells)
               false 1 true [])
            [PointerDown 1 2; PointerMove 1 1; PointerUp] = Some s' ∧
        currentStroke s' = currentStroke three_cells ∧
        paintedPattern s' = paintedPattern three_cells.
Proof.
  destruct (completed_session_is_frozen
              (mkState (targetPattern three_cells) (paintedPattern three_cells)
                 (currentStroke three_cells) (startingPoint three_cells)
                 false 1 true [])
              [PointerDown 1 2; PointerMove 1 1; PointerUp] eq_refl eq_refl)
    as (s' & H1 & H2 & H3 & _).
  exists s'. split; [exact H1|]. split; [exact H2|exact H3].
Defined.

Lemma hovering_changes_nothing_witness :
  run mounted [PointerMove 1 1; PointerMove 1 2; PointerMove 9 9] = Some mounted.
Proof.
  exact (hovering_changes_nothing mounted
           [PointerMove 1 1; PointerMove 1 2; PointerMove 9 9] eq_refl eq_refl).
Defined.

Lemma cell_type_reflects_session_witness :
  run mounted three_cells_events = Some three_cells ∧
  (getCellType three_cells 1 2 = cell_painted ↔
   mkPosition 1 2 ∈ currentStroke three_cells).
Proof.
  assert (fresh_session mounted) as Hf.
  { repeat split; vm_compute; repeat constructor. }
  assert (run mounted three_cells_events = Some three_cells) as Hrun
    by reflexivity.
  split; [exact Hrun|].
  exact (proj1 (proj2 (cell_type_reflects_session mounted three_cells_events
                         three_cells 1 2 Hf Hrun))).
Defined.

Lemma tiles_are_the_target_cells_witness :
  mkTile 1 1 cell_start 62 62 ∈ renderTiles mounted ∧
  targetAt (targetPattern mounted) 1 1 = true.
Proof.
  assert (mkTile 1 1 cell_start 62 62 ∈ renderTiles mounted) as Hin.
  { vm_compute. apply list_elem_of_here. }
  split; [exact Hin|].
  exact (proj1 (proj2 (proj1 (tiles_are_the_target_cells mounted) _ Hin))).
Defined.

Lemma press_on_tile_touches_its_cell_witness :
  mkTile 1 1 cell_start 62 62 ∈ renderTiles mounted ∧
  mouseDown mounted (100 + 62 + 5) (200 + 62 + 39) 100 200
    = handlePointerDown mounted 1 1.
Proof.
  assert (mkTile 1 1 cell_start 62 62 ∈ renderTiles mounted) as Hin.
  { vm_compute. apply list_elem_of_here. }
  split; [exact Hin|].
  refine (proj1 (press_on_tile_touches_its_cell mounted _ 5 39 100 200 Hin _ _));
    unfold TILE_SIZE, TILE_GAP; lia.
Defined.

Lemma press_beside_grid_is_ignored_witness :
  mouseDown initialState 3 3 0 0 = Some (setIsDrawing initialState true).
Proof.
  refine (proj1 (press_beside_grid_is_ignored initialState 3 3 0 0 _)).
  unfold GRID_SIZE, TILE_SIZE, TILE_GAP. lia.
Defined.

Lemma start_marker_iff_empty_stroke_witness :
  run mounted three_cells_events = Some three_cells ∧
  startIndicator three_cells = Some false.
Proof.
  assert (run mounted three_cells_events = Some three_cells) as Hrun
    by reflexivity.
  split; [exact Hrun|].
  exact (start_marker_iff_empty_stroke three_cells_events three_cells Hrun).
Defined.

Lemma stroke_lines_join_adjacent_cells_witness :
  run mounted three_cells_events = Some three_cells ∧
  ∃ lines, strokeLines three_cells = Some lines ∧
           length lines = (length (currentStroke three_cells) - 1)%nat.
Proof.
  assert (fresh_session mounted) as Hf.
  { repeat split; vm_compute; repeat constructor. }
  assert (run mounted three_cells_events = Some three_cells) as Hrun
    by reflexivity.
  split; [exact Hrun|].
  destruct (stroke_lines_join_adjacent_cells mounted three_cells_events
              three_cells Hf Hrun) as (lines & H1 & H2 & _).
  exists lines. split; [exact H1|exact H2].
Defined.

Lemma pending_check_survives_generation_witness :
  ∃ s', step (resetLevel level_one_painted) (TimerFires 0) = Some s' ∧
        isCompleted s' = true ∧ currentStroke s' = [].
Proof.
  assert (timers level_one_painted !! 0%nat
          = Some (CompletionCheck (targetPattern level_one_painted)
                                  (paintedPattern level_one_painted))) as Hi
    by (vm_compute; reflexivity).
  assert (checkCompletion (targetPattern level_one_painted)
                          (paintedPattern level_one_painted) = Some true)
    as Hcheck by (vm_compute; reflexivity).
  destruct (pending_check_survives_generation level_one_painted 0
              (targetPattern level_one_painted)
              (paintedPattern level_one_painted)
              (level level_one_painted) Hi Hcheck)
    as (s' & H1 & H2 & H3 & _).
  exists s'. split; [exact H1|]. split; [exact H2|exact H3].
Defined.
